(** * drone-runtime, Docker engine: engine/docker/docker.go

    A shallow embedding of the Docker engine of drone-runtime: the image
    reference resolver [parseImage] and the life-cycle operations [Setup],
    [Create], [Start], [Wait], [Tail] and [Destroy] of [dockerEngine],
    together with the properties of their error handling.

    The Docker daemon is reached through the [APIClient] interface; every
    call is recorded, with its answer, in the trace of the run. *)

From Stdlib Require Import Ascii NArith ZArith Lia.
From Stdlib Require String.
From stdpp Require Import base option list strings gmap.

Local Open Scope char_scope.
Local Open Scope stdpp_scope.

(** ** Go strings

    A Go string is a sequence of bytes. The functions of package [strings]
    that the engine and the reference parser use are defined on the list of
    bytes of the string. *)

Module strings.

Abbreviation bytes := (list ascii).

Definition of_string (s : string) : bytes := String.list_ascii_of_string s.
Definition to_string (l : bytes) : string := String.string_of_list_ascii l.

Definition byte_eqb (a b : ascii) : bool := Ascii.eqb a b.

Fixpoint bytes_eqb (a b : bytes) : bool :=
  match a, b with
  | [], [] => true
  | x :: a', y :: b' => byte_eqb x y && bytes_eqb a' b'
  | _, _ => false
  end.

(** [strings.HasSuffix]: [len(s) >= len(suffix) &&
    s[len(s)-len(suffix):] == suffix]. *)
Definition HasSuffixBytes (s suffix : bytes) : bool :=
  (length suffix <=? length s)%nat
  && bytes_eqb (drop (length s - length suffix) s) suffix.

Definition HasSuffix (s suffix : string) : bool :=
  HasSuffixBytes (of_string s) (of_string suffix).

(** [strings.ContainsRune] for a rune below 128. *)
Definition ContainsRune (s : bytes) (r : ascii) : bool :=
  existsb (byte_eqb r) s.

(** [strings.ContainsAny]. *)
Definition ContainsAny (s chars : bytes) : bool :=
  existsb (fun c => ContainsRune chars c) s.

(** [strings.IndexRune] followed by the two slices [s[:i]] and
    [s[i+1:]]: [None] stands for the index -1. *)
Fixpoint cut (r : ascii) (s : bytes) : option (bytes * bytes) :=
  match s with
  | [] => None
  | c :: s' =>
      if byte_eqb r c then Some ([], s')
      else match cut r s' with
           | Some (a, b) => Some (c :: a, b)
           | None => None
           end
  end.

(** The same at the last occurrence of [r] ([strings.LastIndex]). *)
Definition cut_last (r : ascii) (s : bytes) : option (bytes * bytes) :=
  match cut r (rev s) with
  | Some (a, b) => Some (rev b, rev a)
  | None => None
  end.

(** [strings.Split(s, sep)] for a one-byte separator. *)
Fixpoint split (r : ascii) (s : bytes) : list bytes :=
  match s with
  | [] => [[]]
  | c :: s' =>
      if byte_eqb r c then [] :: split r s'
      else match split r s' with
           | seg :: segs => (c :: seg) :: segs
           | [] => [[c]]
           end
  end.

Definition in_range (lo hi c : ascii) : bool :=
  (N_of_ascii lo <=? N_of_ascii c)%N && (N_of_ascii c <=? N_of_ascii hi)%N.

Definition is_lower (c : ascii) : bool := in_range "a" "z" c.
Definition is_upper (c : ascii) : bool := in_range "A" "Z" c.
Definition is_digit (c : ascii) : bool := in_range "0" "9" c.

(** [strings.ToLower] on the ASCII letters. Go decodes UTF-8 and lowers
    every Unicode letter; here a byte outside ASCII is left as it is. The
    grammar of references has ASCII bytes only, so that a string with
    another byte is refused in both; the error of the parser that reports
    it can differ. *)
Definition lower (c : ascii) : ascii :=
  if is_upper c then ascii_of_N (N_of_ascii c + 32) else c.

Definition ToLower (s : bytes) : bytes := map lower s.

End strings.

Import strings.

(** ** Errors

    A Go [error] value. [errors.New] builds an [errorString]; the Docker
    client has an error type for an image that is absent locally, and the
    other failures of the daemon are [daemonError]s with the status of the
    response. A [nil] error is [None] of [option error]. *)

Inductive error : Type :=
| errorString (msg : string)
| imageNotFoundError (imageID : string)
| daemonError (status : Z) (msg : string).

Module errors.
Definition New (msg : string) : error := errorString msg.
End errors.

(** ** Package [github.com/docker/distribution/reference]

    The grammar of image references and the normalisation that Docker
    applies to the short names. The package is a dependency of the
    repository and not part of its source: the model follows the grammar of
    its regexp.go and the functions of its normalize.go and reference.go.
    The engine reaches it through [ParseNormalizedNamed], [TagNameOnly],
    [Domain] and the [String] method; the regular expressions are written
    as recognisers over bytes. *)

Module reference.

(** The struct [reference]: the empty string in [tag] or [digest] says
    that the field is absent, as in Go. *)
Record Named : Type := mkNamed {
  domain : string;
  path : string;
  tag : string;
  digest : string
}.

Definition ErrReferenceInvalidFormat : error :=
  errors.New "invalid reference format".
Definition ErrNameContainsUppercase : error :=
  errors.New "repository name must be lowercase".
Definition ErrNameEmpty : error :=
  errors.New "repository name must have at least one component".
Definition ErrNameTooLong : error :=
  errors.New "repository name must not be more than 255 characters".
Definition ErrIdentifier (s : string) : error :=
  errors.New ("invalid repository name (" +:+ s
              +:+ "), cannot specify 64-byte hexadecimal strings").
Definition ErrNotLowercase : error :=
  errors.New "invalid reference format: repository name must be lowercase".
Definition ErrDigestInvalidFormat : error :=
  errors.New "invalid checksum digest format".
Definition ErrDigestInvalidLength : error :=
  errors.New "invalid checksum digest length".
Definition ErrDigestUnsupported : error :=
  errors.New "unsupported digest algorithm".

Definition NameTotalLengthMax : nat := 255.
Definition defaultDomain : string := "docker.io".
Definition legacyDefaultDomain : string := "index.docker.io".
Definition officialRepoName : string := "library".
Definition defaultTag : string := "latest".

(** *** Character classes *)

(** [[a-z0-9]] *)
Definition lower_alnum (c : ascii) : bool := is_lower c || is_digit c.
(** [[a-zA-Z0-9]] *)
Definition alnum (c : ascii) : bool := is_lower c || is_upper c || is_digit c.
(** [\w] *)
Definition word (c : ascii) : bool := alnum c || byte_eqb c "_".
(** [[a-f0-9]] *)
Definition lower_hex (c : ascii) : bool := in_range "a" "f" c || is_digit c.
(** [[[:xdigit:]]] *)
Definition xdigit (c : ascii) : bool := lower_hex c || in_range "A" "F" c.
Definition letter (c : ascii) : bool := is_lower c || is_upper c.

(** *** Recognisers *)

(** [nameComponentRegexp]: runs of [[a-z0-9]], two neighbouring runs
    being separated by one period, one or two underscores, or any number
    of dashes. The state says what came last. *)
Inductive component_state : Type :=
| NeedAlnum        (* at the start, or after "." or "__" *)
| AfterAlnum       (* after an alphanumeric: may stop here *)
| AfterUnderscore  (* after one "_" *)
| InDashes.        (* after one or more "-" *)

Fixpoint nameComponentFrom (st : component_state) (s : bytes) : bool :=
  match s with
  | [] => match st with AfterAlnum => true | _ => false end
  | c :: s' =>
      if lower_alnum c then nameComponentFrom AfterAlnum s'
      else if byte_eqb c "." then
        match st with AfterAlnum => nameComponentFrom NeedAlnum s' | _ => false end
      else if byte_eqb c "_" then
        match st with
        | AfterAlnum => nameComponentFrom AfterUnderscore s'
        | AfterUnderscore => nameComponentFrom NeedAlnum s'
        | _ => false
        end
      else if byte_eqb c "-" then
        match st with
        | AfterAlnum | InDashes => nameComponentFrom InDashes s'
        | _ => false
        end
      else false
  end.

Definition nameComponent (s : bytes) : bool := nameComponentFrom NeedAlnum s.

(** [domainComponentRegexp]:
    [(?:[a-zA-Z0-9]|[a-zA-Z0-9][a-zA-Z0-9-]*[a-zA-Z0-9])]. *)
Definition domainComponent (s : bytes) : bool :=
  match s with
  | [] => false
  | c :: _ =>
      alnum c
      && forallb (fun x => alnum x || byte_eqb x "-") s
      && match last s with Some z => alnum z | None => false end
  end.

(** The host of a domain, [domainComponent(?:\.domainComponent)*], and
    its optional port, [(?::[0-9]+)?]. *)
Definition domainHost (s : bytes) : bool :=
  forallb domainComponent (split "." s).

Definition port (s : bytes) : bool :=
  match s with [] => false | _ => forallb is_digit s end.

Definition domainRegexp (s : bytes) : bool :=
  match cut ":" s with
  | Some (h, p) => domainHost h && port p
  | None => domainHost s
  end.

(** [TagRegexp]: [[\w][\w.-]{0,127}]. *)
Definition tagRegexp (s : bytes) : bool :=
  match s with
  | [] => false
  | c :: s' =>
      word c
      && forallb (fun x => word x || byte_eqb x "." || byte_eqb x "-") s'
      && (length s' <=? 127)%nat
  end.

(** The algorithm of a digest: words that start with a letter and go on
    with letters and digits, separated by one of [-_+.]. *)
Definition algorithmSeparator (c : ascii) : bool :=
  byte_eqb c "-" || byte_eqb c "_" || byte_eqb c "+" || byte_eqb c ".".

Fixpoint algorithmFrom (afterLetter : bool) (s : bytes) : bool :=
  match s with
  | [] => afterLetter
  | c :: s' =>
      if letter c then algorithmFrom true s'
      else if is_digit c then afterLetter && algorithmFrom true s'
      else if algorithmSeparator c then
        afterLetter
        && match s' with
           | d :: _ => letter d && algorithmFrom false s'
           | [] => false
           end
      else false
  end.

(** [DigestRegexp]: the algorithm, ":" and at least 32 hexadecimal
    digits. *)
Definition digestRegexp (s : bytes) : bool :=
  match cut ":" s with
  | Some (a, h) =>
      algorithmFrom false a && forallb xdigit h && (32 <=? length h)%nat
  | None => false
  end.

(** The regular expression of the digest package, anchored: words of
    lower-case letters and digits separated by one of [.+_-], ":" and one
    or more letters, digits, "=", "_" or "-". It is narrower than
    [digestRegexp] on the algorithm, which the grammar of references lets
    be in upper case. *)
Fixpoint digestAlgorithmFrom (afterWord : bool) (s : bytes) : bool :=
  match s with
  | [] => afterWord
  | c :: s' =>
      if lower_alnum c then digestAlgorithmFrom true s'
      else if algorithmSeparator c then afterWord && digestAlgorithmFrom false s'
      else false
  end.

Definition encoded (c : ascii) : bool :=
  alnum c || byte_eqb c "=" || byte_eqb c "_" || byte_eqb c "-".

Definition DigestRegexpAnchored (s : bytes) : bool :=
  match cut ":" s with
  | Some (a, h) =>
      digestAlgorithmFrom false a && (1 <=? length h)%nat && forallb encoded h
  | None => false
  end.

(** [Digest.Validate]: the algorithm has to be one of the registered ones,
    and the hexadecimal part has its length, in lower case. An algorithm
    that is not registered is unsupported when the digest matches
    [DigestRegexpAnchored], and malformed otherwise. *)
Definition algorithmSize (a : string) : option nat :=
  if String.eqb a "sha256" then Some 32%nat
  else if String.eqb a "sha384" then Some 48%nat
  else if String.eqb a "sha512" then Some 64%nat
  else None.

Definition digestValidate (s : bytes) : option error :=
  match cut ":" s with
  | Some (a, h) =>
      match a, h with
      | [], _ | _, [] => Some ErrDigestInvalidFormat
      | _, _ =>
          match algorithmSize (to_string a) with
          | None =>
              if DigestRegexpAnchored s then Some ErrDigestUnsupported
              else Some ErrDigestInvalidFormat
          | Some size =>
              if negb (length h =? 2 * size)%nat then Some ErrDigestInvalidLength
              else if forallb lower_hex h then None
              else Some ErrDigestInvalidFormat
          end
      end
  | None => Some ErrDigestInvalidFormat
  end.

(** [MatchString] from the submatches of [FindStringSubmatch]. *)
Definition matched {A} (m : option A) : bool :=
  match m with Some _ => true | None => false end.

(** [anchoredIdentifierRegexp]: exactly 64 digits of [[a-f0-9]]. *)
Definition anchoredIdentifierRegexp (s : bytes) : bool :=
  (length s =? 64)%nat && forallb lower_hex s.

(** A repository path, [nameComponent(?:/nameComponent)*]. *)
Definition pathRegexp (s : bytes) : bool :=
  forallb nameComponent (split "/" s).

(** [anchoredNameRegexp] with its two submatches, the domain and the
    path. The optional domain group is tried first, as the regular
    expression engine does; without it the whole name is a path. *)
Definition anchoredNameRegexp (s : bytes) : option (bytes * bytes) :=
  match cut "/" s with
  | Some (d, p) =>
      if domainRegexp d && pathRegexp p then Some (d, p)
      else if pathRegexp s then Some ([], s)
      else None
  | None => if pathRegexp s then Some ([], s) else None
  end.

(** [ReferenceRegexp] with its three submatches: the name, the tag after
    ":" and the digest after "@". A group that does not take part in the
    match is the empty string. The tag can only start in the last
    component: a ":" before a "/" belongs to the port of the domain. *)
Definition ReferenceRegexp (s : bytes) : option (bytes * bytes * bytes) :=
  let '(front, dgst) :=
    match cut "@" s with
    | Some (f, d) => (f, Some d)
    | None => (s, None)
    end in
  let '(name, tg) :=
    match cut_last ":" front with
    | Some (n, t) => if ContainsRune t "/" then (front, None) else (n, Some t)
    | None => (front, None)
    end in
  if matched (anchoredNameRegexp name)
     && from_option tagRegexp true tg
     && from_option digestRegexp true dgst
  then Some (name, default [] tg, default [] dgst)
  else None.

(** [reference.Parse]. With a name, [getBestReferenceType] keeps the four
    fields; the name is never empty after a match. *)
Definition Parse (s : bytes) : error + Named :=
  match ReferenceRegexp s with
  | None =>
      match s with
      | [] => inl ErrNameEmpty
      | _ =>
          if matched (ReferenceRegexp (ToLower s))
          then inl ErrNameContainsUppercase
          else inl ErrReferenceInvalidFormat
      end
  | Some (name, tg, dgst) =>
      if (NameTotalLengthMax <? length name)%nat then inl ErrNameTooLong
      else
        let '(d, p) := default ([], name) (anchoredNameRegexp name) in
        let ref := mkNamed (to_string d) (to_string p)
                           (to_string tg) (to_string dgst) in
        match dgst with
        | [] => inr ref
        | _ => match digestValidate dgst with
               | Some err => inl err
               | None => inr ref
               end
        end
  end.

(** [splitDockerDomain]: the part before the first "/" is a domain when
    it has a "." or a ":" or is "localhost"; the legacy domain is
    replaced, and an official image gets the "library/" prefix. *)
Definition splitDockerDomain (name : bytes) : bytes * bytes :=
  let '(domain, remainder) :=
    match cut "/" name with
    | None => (of_string defaultDomain, name)
    | Some (d, r) =>
        if negb (ContainsAny d (of_string ".:"))
           && negb (bytes_eqb d (of_string "localhost"))
        then (of_string defaultDomain, name)
        else (d, r)
    end in
  let domain :=
    if bytes_eqb domain (of_string legacyDefaultDomain)
    then of_string defaultDomain else domain in
  let remainder :=
    if bytes_eqb domain (of_string defaultDomain)
       && negb (ContainsRune remainder "/")
    then of_string officialRepoName ++ "/"%char :: remainder
    else remainder in
  (domain, remainder).

(** [ParseNormalizedNamed]. *)
Definition ParseNormalizedNamed (s : string) : error + Named :=
  let b := of_string s in
  if anchoredIdentifierRegexp b then inl (ErrIdentifier s)
  else
    let '(domain, remainder) := splitDockerDomain b in
    let remoteName :=
      match cut ":" remainder with
      | Some (n, _) => n
      | None => remainder
      end in
    if negb (bytes_eqb (ToLower remoteName) remoteName) then inl ErrNotLowercase
    else Parse (domain ++ "/"%char :: remainder).

(** [Named.Name()]. *)
Definition Name (r : Named) : string :=
  if String.eqb (domain r) EmptyString then path r
  else domain r +:+ "/" +:+ path r.

(** [Named.String()]: the name, then ":" and the tag, then "@" and the
    digest, each when present. *)
Definition String (r : Named) : string :=
  Name r
  +:+ (if String.eqb (tag r) EmptyString then EmptyString else ":" +:+ tag r)
  +:+ (if String.eqb (digest r) EmptyString then EmptyString
       else "@" +:+ digest r).

(** [reference.Domain]. *)
Definition Domain (r : Named) : string := domain r.

(** [IsNameOnly]: neither tagged nor canonical. *)
Definition IsNameOnly (r : Named) : bool :=
  String.eqb (tag r) EmptyString && String.eqb (digest r) EmptyString.

Definition ErrTagInvalidFormat : error := errors.New "invalid tag format".

(** [WithTag]. *)
Definition WithTag (r : Named) (t : string) : error + Named :=
  if negb (tagRegexp (of_string t)) then inl ErrTagInvalidFormat
  else inr (mkNamed (domain r) (path r) t (digest r)).

(** [TagNameOnly]. The Go function panics when [WithTag] fails, which
    the default tag never causes. *)
Definition TagNameOnly (r : Named) : Named :=
  if IsNameOnly r then
    match WithTag r defaultTag with
    | inr tagged => tagged
    | inl _ => r
    end
  else r.

(** The bytes that the grammar of references uses: letters, digits and
    the punctuation of names, domains, tags and digests. *)
Definition legal (c : ascii) : bool :=
  alnum c || ContainsRune (of_string "._-/:@+") c.

(** The errors of [ParseNormalizedNamed]: the error values of the package
    and of [digest.Parse], and the error that carries the identifier. *)
Definition parseErrors : list error :=
  [ErrReferenceInvalidFormat; ErrNameContainsUppercase; ErrNameEmpty;
   ErrNameTooLong; ErrNotLowercase; ErrDigestInvalidFormat;
   ErrDigestInvalidLength; ErrDigestUnsupported].

Definition isParseError (err : error) : Prop :=
  err ∈ parseErrors \/ exists s, err = ErrIdentifier s.

End reference.

(** ** The resolver of image references

    [parseImage] of docker.go: the canonical name, the domain, whether the
    canonical name ends in ":latest", and the error of the parser. *)

Definition parseImage (s : string) : error + (string * string * bool) :=
  match reference.ParseNormalizedNamed s with
  | inl err => inl err
  | inr named =>
      let named := reference.TagNameOnly named in
      inr (reference.String named,
           reference.Domain named,
           strings.HasSuffix (reference.String named) ":latest")
  end.

(** The [InvalidReference] of the error taxonomy: an error of the parser
    of references, which [parseImage] returns as it is. *)
Definition InvalidReference (err : error) : Prop :=
  reference.isParseError err.

(** ** Package [engine]: the pipeline specification

    docker.go reads the structs of package [engine], whose declarations are
    in another file of the repository. Each is given with the fields that
    docker.go reads; a pointer field that may be nil is an [option]. *)

Module engine.

(** Modelled from the spec: the unique identifier and the label set that
    the PipelineSpec, the Step and the Volume carry ([Metadata] in
    docker.go), and the name of a file payload. *)
Record Metadata : Type := {
  UID : string;
  Metadata_Name : string;
  Labels : gmap string string
}.

(** Modelled from the spec: the configuration of an ephemeral volume
    ([vol.EmptyDir] in docker.go, which only tests it for nil). *)
Record VolumeEmptyDir : Type := { Medium : string; SizeLimit : Z }.

(** Modelled from the spec: the configuration of an externally-mounted
    volume. *)
Record VolumeHostPath : Type := { HostPath_Path : string }.

(** Modelled from the spec: the Volume of the data model, ephemeral when
    [EmptyDir] is set and externally mounted otherwise. *)
Record Volume : Type := {
  Volume_Metadata : Metadata;
  EmptyDir : option VolumeEmptyDir;
  HostPath : option VolumeHostPath
}.

(** Modelled from the spec: the AuthorizationEntry of the data model,
    username and password keyed by the registry domain. *)
Record DockerAuth : Type := {
  Address : string;
  Username : string;
  Password : string
}.

(** Modelled from the spec: the environment configuration of the
    PipelineSpec, with the declared volumes and the registry
    authorization entries ([e.spec.Docker] in docker.go). *)
Record DockerConfig : Type := {
  Auths : list DockerAuth;
  Volumes : list Volume
}.

(** Modelled from the spec: the pull policy, Always, Default or Never.
    docker.go compares the policy with these three names only; the
    fourth value stands for a policy that is none of them, which the
    integer type of the policy allows. *)
Inductive PullPolicy : Type :=
| PullDefault
| PullAlways
| PullIfNotExists
| PullNever.

Definition PullPolicy_eqb (a b : PullPolicy) : bool :=
  match a, b with
  | PullDefault, PullDefault | PullAlways, PullAlways
  | PullIfNotExists, PullIfNotExists | PullNever, PullNever => true
  | _, _ => false
  end.

(** Modelled from the spec: the container configuration of a Step, with
    the image reference and the pull policy ([step.Docker] in docker.go). *)
Record DockerStep : Type := {
  Image : string;
  Step_PullPolicy : PullPolicy
}.

(** Modelled from the spec: a file-mount request, with the name of the
    payload, the destination path and the mode. *)
Record FileMount : Type := {
  FileMount_Name : string;
  FileMount_Path : string;
  Mode : Z
}.

(** Modelled from the spec: the Step of the data model. *)
Record Step : Type := {
  Step_Metadata : Metadata;
  Step_Docker : option DockerStep;
  Step_Files : list FileMount
}.

(** Modelled from the spec: a named file payload. *)
Record File : Type := {
  File_Metadata : Metadata;
  Data : bytes
}.

(** Modelled from the spec: the PipelineSpec of the data model. *)
Record Spec : Type := {
  Spec_Metadata : Metadata;
  Steps : list Step;
  Spec_Files : list File;
  Spec_Docker : option DockerConfig
}.

(** Modelled from the spec: the ExecutionState of the data model. *)
Record State : Type := {
  ExitCode : Z;
  Exited : bool;
  OOMKilled : bool
}.

End engine.

(** ** The types of the Docker API that the engine fills in or reads *)

Module types.

Record VolumesCreateBody : Type := {
  Name : string;
  Driver : string;
  VolumeLabels : gmap string string
}.

Record NetworkCreate : Type := {
  NetworkDriver : string;
  NetworkLabels : gmap string string
}.

Record ImagePullOptions : Type := { RegistryAuth : string }.

Record CopyToContainerOptions : Type := { AllowOverwriteDirWithFile : bool }.

(** The engine passes the zero value. *)
Record ContainerStartOptions : Type := { CheckpointID : string }.

Record ContainerLogsOptions : Type := {
  Follow : bool;
  ShowStdout : bool;
  ShowStderr : bool;
  Details : bool;
  Timestamps : bool
}.

Record ContainerRemoveOptions : Type := {
  Force : bool;
  RemoveLinks : bool;
  RemoveVolumes : bool
}.

Record ContainerState : Type := {
  Running : bool;
  ContainerExitCode : Z;
  ContainerOOMKilled : bool
}.

Record ContainerJSON : Type := { ContainerJSON_State : ContainerState }.

Record ContainerWaitOKBody : Type := { StatusCode : Z }.

(** What the [select] of [Wait] receives from the two channels of
    [ContainerWait]: the body from the first, or the error from the
    second, whichever is ready first. *)
Inductive WaitMessage : Type :=
| WaitBody (body : ContainerWaitOKBody)
| WaitError (err : error).

End types.

Import engine types.

(** ** The functions that docker.go takes from the rest of the repository

    [engine.LookupAuth] and [engine.LookupFile], [authutil.Encode],
    [stdcopy.StdCopy] and the converters of package docker ([toConfig],
    [toHostConfig], [toNetConfig], [createTarfile]) are parameters of the
    development, with the types of the container configuration that the
    converters build. A lookup returns [None] for [ok = false]. The test of
    the Docker client library for the error of an image that is absent
    locally, behind [docker.IsErrImageNotFound], is a parameter as well. *)

Class Collaborators : Type := {
  container_Config : Type;
  container_HostConfig : Type;
  network_NetworkingConfig : Type;
  LookupAuth : Spec -> string -> option DockerAuth;
  LookupFile : Spec -> string -> option File;
  authutil_Encode : string -> string -> string;
  toConfig : Spec -> Step -> container_Config;
  toHostConfig : Spec -> Step -> container_HostConfig;
  toNetConfig : Spec -> Step -> network_NetworkingConfig;
  createTarfile : File -> FileMount -> bytes;
  stdcopy_StdCopy : bytes -> bytes;
  imageNotFound : error -> bool
}.

(** ** The Docker client

    [docker.APIClient] is an interface: an implementation is a record of
    methods over the state [W] of the daemon. A method returns the error of
    the Go method ([None] for nil) and the next state; a result that the
    engine discards is left out. *)

Module docker.

Record APIClient `{Collaborators} (W : Type) : Type := {
  VolumeCreate : VolumesCreateBody -> W -> option error * W;
  NetworkCreate : string -> NetworkCreate -> W -> option error * W;
  ImagePull : string -> ImagePullOptions -> W -> option error * W;
  ContainerCreate :
    container_Config -> container_HostConfig -> network_NetworkingConfig ->
    string -> W -> option error * W;
  CopyToContainer :
    string -> string -> bytes -> CopyToContainerOptions -> W ->
    option error * W;
  ContainerStart : string -> ContainerStartOptions -> W -> option error * W;
  ContainerWait : string -> string -> W -> WaitMessage * W;
  ContainerInspect : string -> W -> (error + ContainerJSON) * W;
  ContainerLogs : string -> ContainerLogsOptions -> W -> (error + bytes) * W;
  ContainerKill : string -> string -> W -> option error * W;
  ContainerRemove : string -> ContainerRemoveOptions -> W -> option error * W;
  VolumeRemove : string -> bool -> W -> option error * W;
  NetworkRemove : string -> W -> option error * W
}.

(** [docker.IsErrImageNotFound]: false on nil, and on an error the test of
    the client library. *)
Definition IsErrImageNotFound `{Collaborators} (err : option error) : bool :=
  match err with
  | Some err => imageNotFound err
  | None => false
  end.

End docker.

Arguments docker.VolumeCreate {_ W} _ _ _.
Arguments docker.NetworkCreate {_ W} _ _ _ _.
Arguments docker.ImagePull {_ W} _ _ _ _.
Arguments docker.ContainerCreate {_ W} _ _ _ _ _ _.
Arguments docker.CopyToContainer {_ W} _ _ _ _ _ _.
Arguments docker.ContainerStart {_ W} _ _ _ _.
Arguments docker.ContainerWait {_ W} _ _ _ _.
Arguments docker.ContainerInspect {_ W} _ _ _.
Arguments docker.ContainerLogs {_ W} _ _ _ _.
Arguments docker.ContainerKill {_ W} _ _ _ _.
Arguments docker.ContainerRemove {_ W} _ _ _ _.
Arguments docker.VolumeRemove {_ W} _ _ _ _.
Arguments docker.NetworkRemove {_ W} _ _ _.

(** ** Runs and their traces

    A run of an engine method takes the state of the daemon and returns the
    result, the next state and the calls made, each with its answer, in the
    order of the calls. *)

Inductive Call `{Collaborators} : Type :=
| CallVolumeCreate (options : VolumesCreateBody)
| CallNetworkCreate (name : string) (options : NetworkCreate)
| CallImagePull (ref : string) (options : ImagePullOptions)
| CallContainerCreate (config : container_Config)
    (hostConfig : container_HostConfig)
    (networkingConfig : network_NetworkingConfig) (containerName : string)
| CallCopyToContainer (container path : string) (content : bytes)
    (options : CopyToContainerOptions)
| CallContainerStart (container : string) (options : ContainerStartOptions)
| CallContainerWait (container condition : string)
| CallContainerInspect (container : string)
| CallContainerLogs (container : string) (options : ContainerLogsOptions)
| CallContainerKill (container signal : string)
| CallContainerRemove (container : string) (options : ContainerRemoveOptions)
| CallVolumeRemove (volumeID : string) (force : bool)
| CallNetworkRemove (networkID : string).

Inductive Answer : Type :=
| AnswerError (err : option error)
| AnswerWait (msg : WaitMessage)
| AnswerInspect (info : error + ContainerJSON)
| AnswerLogs (logs : error + bytes).

Record Event `{Collaborators} : Type := mkEvent {
  call : Call;
  answer : Answer
}.

Arguments mkEvent {_} _ _.
Arguments call {_} _.
Arguments answer {_} _.

Definition Run `{Collaborators} (W A : Type) : Type := W -> A * W * list Event.

Definition ret `{Collaborators} {W A} (a : A) : Run W A := fun w => (a, w, []).

Definition bind `{Collaborators} {W A B} (m : Run W A) (k : A -> Run W B) :
  Run W B :=
  fun w =>
    let '(a, w1, t1) := m w in
    let '(b, w2, t2) := k a w1 in
    (b, w2, t1 ++ t2).

(** One call of a method of the client, recorded in the trace. *)
Definition invoke `{Collaborators} {W R} (c : Call) (toAnswer : R -> Answer)
    (method : W -> R * W) : Run W R :=
  fun w => let '(r, w') := method w in (r, w', [mkEvent c (toAnswer r)]).

Declare Scope run_scope.
Delimit Scope run_scope with run.
Notation "x <- m ;; k" := (bind m (fun x => k))
  (at level 100, m at next level, k at level 200, right associativity) :
  run_scope.

Definition result `{Collaborators} {W A} (r : A * W * list Event) : A := r.1.1.
Definition world `{Collaborators} {W A} (r : A * W * list Event) : W := r.1.2.
Definition trace `{Collaborators} {W A} (r : A * W * list Event) : list Event :=
  r.2.

(** ** The engine *)

Record dockerEngine `{Collaborators} (W : Type) : Type := {
  spec : Spec;
  client : docker.APIClient W
}.

Arguments spec {_ W} _.
Arguments client {_ W} _.

Section Engine.

Context `{Collaborators} {W : Type}.

Local Open Scope run_scope.

Implicit Types (e : dockerEngine W) (step : Step).

(** *** The methods of [e.client], as recorded calls *)

Definition clientVolumeCreate e (options : VolumesCreateBody) :
  Run W (option error) :=
  invoke (CallVolumeCreate options) AnswerError
    (docker.VolumeCreate (client e) options).

Definition clientNetworkCreate e (name : string) (options : NetworkCreate) :
  Run W (option error) :=
  invoke (CallNetworkCreate name options) AnswerError
    (docker.NetworkCreate (client e) name options).

Definition clientImagePull e (ref : string) (options : ImagePullOptions) :
  Run W (option error) :=
  invoke (CallImagePull ref options) AnswerError
    (docker.ImagePull (client e) ref options).

Definition clientContainerCreate e (config : container_Config)
    (hostConfig : container_HostConfig)
    (networkingConfig : network_NetworkingConfig) (name : string) :
  Run W (option error) :=
  invoke (CallContainerCreate config hostConfig networkingConfig name)
    AnswerError
    (docker.ContainerCreate (client e) config hostConfig networkingConfig name).

Definition clientCopyToContainer e (container path : string)
    (content : bytes) (options : CopyToContainerOptions) :
  Run W (option error) :=
  invoke (CallCopyToContainer container path content options) AnswerError
    (docker.CopyToContainer (client e) container path content options).

Definition clientContainerStart e (container : string)
    (options : ContainerStartOptions) : Run W (option error) :=
  invoke (CallContainerStart container options) AnswerError
    (docker.ContainerStart (client e) container options).

Definition clientContainerWait e (container condition : string) :
  Run W WaitMessage :=
  invoke (CallContainerWait container condition) AnswerWait
    (docker.ContainerWait (client e) container condition).

Definition clientContainerInspect e (container : string) :
  Run W (error + ContainerJSON) :=
  invoke (CallContainerInspect container) AnswerInspect
    (docker.ContainerInspect (client e) container).

Definition clientContainerLogs e (container : string)
    (options : ContainerLogsOptions) : Run W (error + bytes) :=
  invoke (CallContainerLogs container options) AnswerLogs
    (docker.ContainerLogs (client e) container options).

Definition clientContainerKill e (container signal : string) :
  Run W (option error) :=
  invoke (CallContainerKill container signal) AnswerError
    (docker.ContainerKill (client e) container signal).

Definition clientContainerRemove e (container : string)
    (options : ContainerRemoveOptions) : Run W (option error) :=
  invoke (CallContainerRemove container options) AnswerError
    (docker.ContainerRemove (client e) container options).

Definition clientVolumeRemove e (volumeID : string) (force : bool) :
  Run W (option error) :=
  invoke (CallVolumeRemove volumeID force) AnswerError
    (docker.VolumeRemove (client e) volumeID force).

Definition clientNetworkRemove e (networkID : string) : Run W (option error) :=
  invoke (CallNetworkRemove networkID) AnswerError
    (docker.NetworkRemove (client e) networkID).

(** *** Setup *)

(** The loop of [Setup] over [e.spec.Docker.Volumes]; [Some err] is the
    [return err] inside the loop. *)
Fixpoint Setup_volumes e (vols : list Volume) : Run W (option error) :=
  match vols with
  | [] => ret None
  | vol :: vols' =>
      match EmptyDir vol with
      | None => Setup_volumes e vols'
      | Some _ =>
          err <- clientVolumeCreate e
                   {| Name := UID (Volume_Metadata vol);
                      Driver := "local";
                      VolumeLabels := Labels (Spec_Metadata (spec e)) |} ;;
          match err with
          | Some err => ret (Some err)
          | None => Setup_volumes e vols'
          end
      end
  end.

Definition Setup e : Run W (option error) :=
  returned <- match Spec_Docker (spec e) with
              | Some d => Setup_volumes e (Volumes d)
              | None => ret None
              end ;;
  match returned with
  | Some err => ret (Some err)
  | None =>
      clientNetworkCreate e (UID (Spec_Metadata (spec e)))
        {| NetworkDriver := "bridge";
           NetworkLabels := Labels (Spec_Metadata (spec e)) |}
  end.

(** *** Create *)

(** The loop of [Create] over [step.Files]. *)
Fixpoint Create_files e step (mounts : list FileMount) :
  Run W (option error) :=
  match mounts with
  | [] => ret None
  | mount :: mounts' =>
      match LookupFile (spec e) (FileMount_Name mount) with
      | None => Create_files e step mounts'
      | Some file =>
          let tar := createTarfile file mount in
          err <- clientCopyToContainer e (UID (Step_Metadata step)) "/" tar
                   {| AllowOverwriteDirWithFile := false |} ;;
          match err with
          | Some err => ret (Some err)
          | None => Create_files e step mounts'
          end
      end
  end.

(** From [if err != nil] after the creation to the end of [Create]. *)
Definition Create_finish e step (err : option error) : Run W (option error) :=
  match err with
  | Some err => ret (Some err)
  | None => Create_files e step (Step_Files step)
  end.

(** The pull options of [Create]: the zero value, with the encoded
    credentials of the registry when [LookupAuth] finds them. *)
Definition Create_pullopts (s : Spec) (domain : string) : ImagePullOptions :=
  match LookupAuth s domain with
  | Some auth =>
      {| RegistryAuth := authutil_Encode (Username auth) (Password auth) |}
  | None => {| RegistryAuth := EmptyString |}
  end.

Definition Create_container e step : Run W (option error) :=
  clientContainerCreate e (toConfig (spec e) step) (toHostConfig (spec e) step)
    (toNetConfig (spec e) step) (UID (Step_Metadata step)).

(** The container creation of [Create] and the recovery from an image
    that is absent locally: one pull and one more creation. *)
Definition Create_creation e step (d : DockerStep)
    (pullopts : ImagePullOptions) : Run W (option error) :=
  err <- Create_container e step ;;
  if docker.IsErrImageNotFound err
     && negb (PullPolicy_eqb (Step_PullPolicy d) PullNever)
  then
    perr <- clientImagePull e (Image d) pullopts ;;
    match perr with
    | Some perr => ret (Some perr)
    | None =>
        err <- Create_container e step ;;
        Create_finish e step err
    end
  else Create_finish e step err.

Definition Create e step : Run W (option error) :=
  match Step_Docker step with
  | None => ret (Some (errors.New "engine: missing docker configuration"))
  | Some d =>
      match parseImage (Image d) with
      | inl err => ret (Some err)
      | inr (_, domain, latest) =>
          let pullopts := Create_pullopts (spec e) domain in
          perr <- (if PullPolicy_eqb (Step_PullPolicy d) PullAlways
                      || (PullPolicy_eqb (Step_PullPolicy d) PullDefault
                          && latest)
                   then clientImagePull e (Image d) pullopts
                   else ret None) ;;
          match perr with
          | Some perr => ret (Some perr)
          | None => Create_creation e step d pullopts
          end
      end
  end.

(** *** Start, Wait and Tail *)

Definition Start e step : Run W (option error) :=
  clientContainerStart e (UID (Step_Metadata step))
    {| CheckpointID := EmptyString |}.

(** [Wait] returns the state and the error; the [select] takes the first
    message of the two channels and drops it. *)
Definition Wait e step : Run W (option State * option error) :=
  _ <- clientContainerWait e (UID (Step_Metadata step)) EmptyString ;;
  info <- clientContainerInspect e (UID (Step_Metadata step)) ;;
  match info with
  | inl err => ret (None, Some err)
  | inr info =>
      ret (Some {| Exited := true;
                   ExitCode := ContainerExitCode (ContainerJSON_State info);
                   OOMKilled := ContainerOOMKilled (ContainerJSON_State info) |},
           None)
  end.

(** [Tail]: the reader that is returned yields what [stdcopy.StdCopy]
    writes to the pipe from the logs. *)
Definition Tail e step : Run W (option bytes * option error) :=
  logs <- clientContainerLogs e (UID (Step_Metadata step))
            {| Follow := true; ShowStdout := true; ShowStderr := true;
               Details := false; Timestamps := false |} ;;
  match logs with
  | inl err => ret (None, Some err)
  | inr logs => ret (Some (stdcopy_StdCopy logs), None)
  end.

(** *** Destroy *)

Definition removeOpts : ContainerRemoveOptions :=
  {| Force := true; RemoveLinks := false; RemoveVolumes := true |}.

(** The loop of [Destroy] over [e.spec.Steps]: the two errors are not
    looked at. *)
Fixpoint Destroy_containers e (steps : list Step) : Run W unit :=
  match steps with
  | [] => ret tt
  | step :: steps' =>
      _ <- clientContainerKill e (UID (Step_Metadata step)) "9" ;;
      _ <- clientContainerRemove e (UID (Step_Metadata step)) removeOpts ;;
      Destroy_containers e steps'
  end.

(** The loop of [Destroy] over [e.spec.Docker.Volumes]. *)
Fixpoint Destroy_volumes e (vols : list Volume) : Run W (option error) :=
  match vols with
  | [] => ret None
  | vol :: vols' =>
      match EmptyDir vol with
      | None => Destroy_volumes e vols'
      | Some _ =>
          err <- clientVolumeRemove e (UID (Volume_Metadata vol)) true ;;
          match err with
          | Some err => ret (Some err)
          | None => Destroy_volumes e vols'
          end
      end
  end.

Definition Destroy e : Run W (option error) :=
  _ <- Destroy_containers e (Steps (spec e)) ;;
  returned <- match Spec_Docker (spec e) with
              | Some d => Destroy_volumes e (Volumes d)
              | None => ret None
              end ;;
  match returned with
  | Some err => ret (Some err)
  | None => clientNetworkRemove e (UID (Spec_Metadata (spec e)))
  end.

End Engine.

(** ** Reading a trace *)

Section Traces.

Context `{Collaborators}.

Definition is_pull (c : Call) : bool :=
  match c with CallImagePull _ _ => true | _ => false end.

Definition is_create (c : Call) : bool :=
  match c with CallContainerCreate _ _ _ _ => true | _ => false end.

Definition is_copy (c : Call) : bool :=
  match c with CallCopyToContainer _ _ _ _ => true | _ => false end.

Definition is_network_remove (c : Call) : bool :=
  match c with CallNetworkRemove _ => true | _ => false end.

(** The volume that a volume-create or volume-remove call names. *)
Definition volume_target (c : Call) : option string :=
  match c with
  | CallVolumeCreate options => Some (Name options)
  | CallVolumeRemove volumeID _ => Some volumeID
  | _ => None
  end.

Definition calls (t : list Event) : list Call := map call t.

(** The calls of a trace that create or remove a volume. *)
Definition on_volume (c : Call) : bool :=
  match volume_target c with Some _ => true | None => false end.

Definition volume_calls (t : list Event) : list Call :=
  filter (fun c => on_volume c = true) (calls t).


Definition copy_events (t : list Event) : list Event :=
  filter (fun ev => is_copy (call ev) = true) t.

(** An event of a call that answered with no error. *)
Definition succeeded (c : Call) : Event := mkEvent c (AnswerError None).

(** An event of a call that answered with [err]. *)
Definition failed (c : Call) (err : error) : Event :=
  mkEvent c (AnswerError (Some err)).

(** The volumes that the specification declares, and the ephemeral ones
    among them, in the order of the declaration. *)
Definition declaredVolumes (s : Spec) : list Volume :=
  match Spec_Docker s with
  | Some d => Volumes d
  | None => []
  end.

Definition isEphemeral (vol : Volume) : bool :=
  match EmptyDir vol with Some _ => true | None => false end.

Definition ephemeralVolumes (s : Spec) : list Volume :=
  filter (fun vol => isEphemeral vol = true) (declaredVolumes s).

(** The calls that the engine makes for a volume, a step and a mount. *)
Definition volumeCreateCall (s : Spec) (vol : Volume) : Call :=
  CallVolumeCreate {| Name := UID (Volume_Metadata vol);
                      Driver := "local";
                      VolumeLabels := Labels (Spec_Metadata s) |}.

Definition volumeRemoveCall (vol : Volume) : Call :=
  CallVolumeRemove (UID (Volume_Metadata vol)) true.

Definition networkCreateCall (s : Spec) : Call :=
  CallNetworkCreate (UID (Spec_Metadata s))
    {| NetworkDriver := "bridge";
       NetworkLabels := Labels (Spec_Metadata s) |}.

Definition networkRemoveCall (s : Spec) : Call :=
  CallNetworkRemove (UID (Spec_Metadata s)).

Definition containerCreateCall (s : Spec) (step : Step) : Call :=
  CallContainerCreate (toConfig s step) (toHostConfig s step)
    (toNetConfig s step) (UID (Step_Metadata step)).

Definition teardownCalls (step : Step) : list Call :=
  [CallContainerKill (UID (Step_Metadata step)) "9";
   CallContainerRemove (UID (Step_Metadata step)) removeOpts].

Definition copyCall (step : Step) (found : File * FileMount) : Call :=
  CallCopyToContainer (UID (Step_Metadata step)) "/"
    (createTarfile found.1 found.2)
    {| AllowOverwriteDirWithFile := false |}.

(** The mounts of a step whose payload is found, with the payload. *)
Definition resolvedMounts (s : Spec) (step : Step) :
  list (File * FileMount) :=
  omap (fun mount =>
          match LookupFile s (FileMount_Name mount) with
          | Some file => Some (file, mount)
          | None => None
          end)
       (Step_Files step).


(** The answer of the first container creation of a trace, and the
    events after it. *)
Fixpoint first_creation (t : list Event) : option (Answer * list Event) :=
  match t with
  | [] => None
  | ev :: t' =>
      if is_create (call ev) then Some (answer ev, t') else first_creation t'
  end.

Definition pullCall (s : Spec) (d : DockerStep) (domain : string) : Call :=
  CallImagePull (Image d) (Create_pullopts s domain).

(** A call that is neither a pull nor a container creation. *)
Definition no_attempt (ev : Event) : Prop :=
  is_pull (call ev) = false /\ is_create (call ev) = false.

(** A call names only ephemeral volumes when the volume it creates or
    removes, if any, is a declared volume with [EmptyDir]. *)
Definition targetsEphemeral (s : Spec) (c : Call) : Prop :=
  forall id, volume_target c = Some id ->
    exists vol, vol ∈ declaredVolumes s
                /\ isEphemeral vol = true
                /\ UID (Volume_Metadata vol) = id.

End Traces.

(** ** The operations of the engine, as one type *)

Inductive Operation : Type :=
| OpSetup
| OpCreate (step : Step)
| OpStart (step : Step)
| OpWait (step : Step)
| OpTail (step : Step)
| OpDestroy.

Definition operationTrace `{Collaborators} {W} (e : dockerEngine W)
    (op : Operation) (w : W) : list Event :=
  match op with
  | OpSetup => trace (Setup e w)
  | OpCreate step => trace (Create e step w)
  | OpStart step => trace (Start e step w)
  | OpWait step => trace (Wait e step w)
  | OpTail step => trace (Tail e step w)
  | OpDestroy => trace (Destroy e w)
  end.

(** ** The shapes of a run of Create

    The traces that [Create] can leave, with the result that goes with
    each: the loop over the mounts, the part after a container creation,
    the creation with its recovery, and the whole method. *)

Section CreateRuns.

Context `{Collaborators}.
Variables (s : Spec) (step : Step) (d : DockerStep) (domain : string)
          (latest : bool).

Inductive FilesRun : list (File * FileMount) -> list Event -> option error ->
                     Prop :=
| FilesDone : FilesRun [] [] None
| FilesCopied found rest t r :
    FilesRun rest t r ->
    FilesRun (found :: rest) (succeeded (copyCall step found) :: t) r
| FilesFailed found rest err :
    FilesRun (found :: rest) [failed (copyCall step found) err] (Some err).

Inductive FinishRun : option error -> list Event -> option error -> Prop :=
| FinishError err : FinishRun (Some err) [] (Some err)
| FinishFiles t r :
    FilesRun (resolvedMounts s step) t r -> FinishRun None t r.

Definition recovers (a : option error) : bool :=
  docker.IsErrImageNotFound a
  && negb (PullPolicy_eqb (Step_PullPolicy d) PullNever).

Inductive CreationRun : list Event -> option error -> Prop :=
| CreationOnce a t r :
    recovers a = false ->
    FinishRun a t r ->
    CreationRun (mkEvent (containerCreateCall s step) (AnswerError a) :: t) r
| CreationPullFailed a perr :
    recovers a = true ->
    CreationRun [mkEvent (containerCreateCall s step) (AnswerError a);
                 failed (pullCall s d domain) perr] (Some perr)
| CreationRetried a a' t r :
    recovers a = true ->
    FinishRun a' t r ->
    CreationRun (mkEvent (containerCreateCall s step) (AnswerError a)
                 :: succeeded (pullCall s d domain)
                 :: mkEvent (containerCreateCall s step) (AnswerError a')
                 :: t) r.

Definition pullsFirstb : bool :=
  PullPolicy_eqb (Step_PullPolicy d) PullAlways
  || (PullPolicy_eqb (Step_PullPolicy d) PullDefault && latest).

Inductive CreateRun : list Event -> option error -> Prop :=
| CreatePullFailed perr :
    pullsFirstb = true ->
    CreateRun [failed (pullCall s d domain) perr] (Some perr)
| CreatePulled t r :
    pullsFirstb = true ->
    CreationRun t r ->
    CreateRun (succeeded (pullCall s d domain) :: t) r
| CreateNotPulled t r :
    pullsFirstb = false ->
    CreationRun t r ->
    CreateRun t r.

End CreateRuns.

(** ** The contract of removal

    The calls of [Destroy], as steps of the daemon. *)

Inductive teardown `{Collaborators} {W} (c : docker.APIClient W) : W -> W -> Prop :=
| teardownKill container signal w :
    teardown c w (docker.ContainerKill c container signal w).2
| teardownRemove container options w :
    teardown c w (docker.ContainerRemove c container options w).2
| teardownVolume volumeID force w :
    teardown c w (docker.VolumeRemove c volumeID force w).2
| teardownNetwork networkID w :
    teardown c w (docker.NetworkRemove c networkID w).2.

(** A client keeps the contract, for its notion of which volumes and
    networks exist, when the removal of a volume or network that does not
    exist succeeds, a removal that succeeds leaves the resource
    non-existent, and no call of [Destroy] brings a volume or a network into
    existence. *)
Record RemovalContract `{Collaborators} {W} (c : docker.APIClient W)
    (volumeExists networkExists : W -> string -> Prop) : Prop := {
  absent_volume_removed : forall w volumeID force,
    ~ volumeExists w volumeID ->
    (docker.VolumeRemove c volumeID force w).1 = None;
  absent_network_removed : forall w networkID,
    ~ networkExists w networkID ->
    (docker.NetworkRemove c networkID w).1 = None;
  removed_volume_absent : forall w volumeID force,
    (docker.VolumeRemove c volumeID force w).1 = None ->
    ~ volumeExists (docker.VolumeRemove c volumeID force w).2 volumeID;
  removed_network_absent : forall w networkID,
    (docker.NetworkRemove c networkID w).1 = None ->
    ~ networkExists (docker.NetworkRemove c networkID w).2 networkID;
  absent_volume_stable : forall w w' volumeID,
    teardown c w w' -> ~ volumeExists w volumeID -> ~ volumeExists w' volumeID;
  absent_network_stable : forall w w' networkID,
    teardown c w w' -> ~ networkExists w networkID -> ~ networkExists w' networkID
}.

(** ** The calls of an operation

    What a call addresses, which methods an operation uses, and the calls,
    with their arguments, that an operation makes on a specification. *)

Section Repertoire.

Context `{Collaborators}.

(** The container that a call addresses. *)
Definition container_target (c : Call) : option string :=
  match c with
  | CallContainerCreate _ _ _ containerName => Some containerName
  | CallCopyToContainer container _ _ _ => Some container
  | CallContainerStart container _ => Some container
  | CallContainerWait container _ => Some container
  | CallContainerInspect container => Some container
  | CallContainerLogs container _ => Some container
  | CallContainerKill container _ => Some container
  | CallContainerRemove container _ => Some container
  | _ => None
  end.

(** The network that a call addresses. *)
Definition network_target (c : Call) : option string :=
  match c with
  | CallNetworkCreate name _ => Some name
  | CallNetworkRemove networkID => Some networkID
  | _ => None
  end.

(** The methods of the client that the code of an operation names. *)
Definition permitted (op : Operation) (c : Call) : bool :=
  match op, c with
  | OpSetup, CallVolumeCreate _ => true
  | OpSetup, CallNetworkCreate _ _ => true
  | OpCreate _, CallImagePull _ _ => true
  | OpCreate _, CallContainerCreate _ _ _ _ => true
  | OpCreate _, CallCopyToContainer _ _ _ _ => true
  | OpStart _, CallContainerStart _ _ => true
  | OpWait _, CallContainerWait _ _ => true
  | OpWait _, CallContainerInspect _ => true
  | OpTail _, CallContainerLogs _ _ => true
  | OpDestroy, CallContainerKill _ _ => true
  | OpDestroy, CallContainerRemove _ _ => true
  | OpDestroy, CallVolumeRemove _ _ => true
  | OpDestroy, CallNetworkRemove _ => true
  | _, _ => false
  end.

(** The error in an answer, [None] for nil. *)
Definition answer_error (a : Answer) : option error :=
  match a with
  | AnswerError err => err
  | AnswerWait (WaitError err) => Some err
  | AnswerWait (WaitBody _) => None
  | AnswerInspect (inl err) => Some err
  | AnswerInspect (inr _) => None
  | AnswerLogs (inl err) => Some err
  | AnswerLogs (inr _) => None
  end.

(** The pulls and the container creations of a trace, in order. *)
Definition attempts (t : list Event) : list Call :=
  filter (fun c => is_pull c || is_create c = true) (calls t).

(** An event that did not fail, or a container creation that failed
    because the image is absent locally. *)
Definition passed (ev : Event) : Prop :=
  answer ev = AnswerError None
  \/ (is_create (call ev) = true
      /\ exists a, answer ev = AnswerError a
                   /\ docker.IsErrImageNotFound a = true).

(** The calls that the code of an operation can make on a specification,
    with the arguments it gives them. *)
Definition repertoire (s : Spec) (op : Operation) : list Call :=
  match op with
  | OpSetup =>
      map (volumeCreateCall s) (ephemeralVolumes s) ++ [networkCreateCall s]
  | OpCreate step =>
      match Step_Docker step with
      | None => []
      | Some d =>
          match parseImage (Image d) with
          | inl _ => []
          | inr (_, domain, _) =>
              pullCall s d domain
              :: containerCreateCall s step
              :: map (copyCall step) (resolvedMounts s step)
          end
      end
  | OpStart step =>
      [CallContainerStart (UID (Step_Metadata step))
         {| CheckpointID := EmptyString |}]
  | OpWait step =>
      [CallContainerWait (UID (Step_Metadata step)) EmptyString;
       CallContainerInspect (UID (Step_Metadata step))]
  | OpTail step =>
      [CallContainerLogs (UID (Step_Metadata step))
         {| Follow := true; ShowStdout := true; ShowStderr := true;
            Details := false; Timestamps := false |}]
  | OpDestroy =>
      flat_map teardownCalls (Steps s)
      ++ map volumeRemoveCall (ephemeralVolumes s)
      ++ [networkRemoveCall s]
  end.

End Repertoire.

(** The error that an operation returns. *)
Definition operationError `{Collaborators} {W} (e : dockerEngine W)
    (op : Operation) (w : W) : option error :=
  match op with
  | OpSetup => result (Setup e w)
  | OpCreate step => result (Create e step w)
  | OpStart step => result (Start e step w)
  | OpWait step => (result (Wait e step w)).2
  | OpTail step => (result (Tail e step w)).2
  | OpDestroy => result (Destroy e w)
  end.

(** ** Clients and collaborators for the examples

    A scripted client answers the calls from a list, as a mock does; the
    in-memory daemon keeps the sets of volumes and networks that exist. *)

Module examples.

(** Collaborators over strings: the lookups go through the lists of the
    specification by address and by name. *)
Definition lookupAuth (s : Spec) (domain : string) : option DockerAuth :=
  match Spec_Docker s with
  | Some d => find (fun auth => String.eqb (Address auth) domain) (Auths d)
  | None => None
  end.

Definition lookupFile (s : Spec) (name : string) : option File :=
  find (fun file => String.eqb (Metadata_Name (File_Metadata file)) name)
       (Spec_Files s).

#[export] Instance collaborators : Collaborators := {|
  container_Config := string;
  container_HostConfig := list string;
  network_NetworkingConfig := string;
  LookupAuth := lookupAuth;
  LookupFile := lookupFile;
  authutil_Encode := fun user pass => user +:+ ":" +:+ pass;
  toConfig := fun _ step =>
    match Step_Docker step with Some d => Image d | None => EmptyString end;
  toHostConfig := fun s _ =>
    map (fun vol => UID (Volume_Metadata vol)) (declaredVolumes s);
  toNetConfig := fun s _ => UID (Spec_Metadata s);
  createTarfile := fun file mount =>
    of_string (FileMount_Path mount) ++ Data file;
  stdcopy_StdCopy := fun logs => logs;
  imageNotFound := fun err =>
    match err with imageNotFoundError _ => true | _ => false end
|}.

(** *** The scripted client *)

Record Script : Type := {
  errs : list (option error);
  waitMessage : WaitMessage;
  inspected : error + ContainerJSON;
  logged : error + bytes
}.

(** The next scripted error; nil once the script is used up. *)
Definition next (w : Script) : option error * Script :=
  match errs w with
  | [] => (None, w)
  | err :: rest =>
      (err, {| errs := rest; waitMessage := waitMessage w;
               inspected := inspected w; logged := logged w |})
  end.

Definition scripted : docker.APIClient Script := {|
  docker.VolumeCreate := fun _ => next;
  docker.NetworkCreate := fun _ _ => next;
  docker.ImagePull := fun _ _ => next;
  docker.ContainerCreate := fun _ _ _ _ => next;
  docker.CopyToContainer := fun _ _ _ _ => next;
  docker.ContainerStart := fun _ _ => next;
  docker.ContainerWait := fun _ _ w => (waitMessage w, w);
  docker.ContainerInspect := fun _ w => (inspected w, w);
  docker.ContainerLogs := fun _ _ w => (logged w, w);
  docker.ContainerKill := fun _ _ => next;
  docker.ContainerRemove := fun _ _ => next;
  docker.VolumeRemove := fun _ _ => next;
  docker.NetworkRemove := fun _ => next
|}.

Definition exited (code : Z) : ContainerJSON :=
  {| ContainerJSON_State :=
       {| Running := false; ContainerExitCode := code;
          ContainerOOMKilled := false |} |}.

Definition script (answers : list (option error)) : Script :=
  {| errs := answers;
     waitMessage := WaitBody {| StatusCode := 0 |};
     inspected := inr (exited 0);
     logged := inr [] |}.

(** *** The in-memory daemon

    A volume or a network that is in use cannot be removed; the removal of
    one that does not exist succeeds. *)

Record Daemon : Type := {
  volumes : gset string;
  networks : gset string;
  inUse : gset string
}.

Definition busy : error := daemonError 409 "resource is in use".

Definition daemonVolumeCreate (options : VolumesCreateBody) (w : Daemon) :
  option error * Daemon :=
  (None, {| volumes := {[ Name options ]} ∪ volumes w;
            networks := networks w; inUse := inUse w |}).

Definition daemonNetworkCreate (name : string) (w : Daemon) :
  option error * Daemon :=
  (None, {| volumes := volumes w;
            networks := {[ name ]} ∪ networks w; inUse := inUse w |}).

Definition daemonVolumeRemove (volumeID : string) (w : Daemon) :
  option error * Daemon :=
  if bool_decide (volumeID ∈ volumes w) && bool_decide (volumeID ∈ inUse w)
  then (Some busy, w)
  else (None, {| volumes := volumes w ∖ {[ volumeID ]};
                 networks := networks w; inUse := inUse w |}).

Definition daemonNetworkRemove (networkID : string) (w : Daemon) :
  option error * Daemon :=
  if bool_decide (networkID ∈ networks w) && bool_decide (networkID ∈ inUse w)
  then (Some busy, w)
  else (None, {| volumes := volumes w;
                 networks := networks w ∖ {[ networkID ]};
                 inUse := inUse w |}).

Definition daemon : docker.APIClient Daemon := {|
  docker.VolumeCreate := daemonVolumeCreate;
  docker.NetworkCreate := fun name _ => daemonNetworkCreate name;
  docker.ImagePull := fun _ _ w => (None, w);
  docker.ContainerCreate := fun _ _ _ _ w => (None, w);
  docker.CopyToContainer := fun _ _ _ _ w => (None, w);
  docker.ContainerStart := fun _ _ w => (None, w);
  docker.ContainerWait := fun _ _ w => (WaitBody {| StatusCode := 0 |}, w);
  docker.ContainerInspect := fun _ w => (inr (exited 0), w);
  docker.ContainerLogs := fun _ _ w => (inr [], w);
  docker.ContainerKill := fun _ _ w => (None, w);
  docker.ContainerRemove := fun _ _ w => (None, w);
  docker.VolumeRemove := fun volumeID _ => daemonVolumeRemove volumeID;
  docker.NetworkRemove := daemonNetworkRemove
|}.

(** *** A pipeline *)

Definition meta (uid : string) : Metadata :=
  {| UID := uid; Metadata_Name := uid; Labels := ∅ |}.

Definition cache : Volume :=
  {| Volume_Metadata := meta "vol-cache";
     EmptyDir := Some {| Medium := EmptyString; SizeLimit := 0 |};
     HostPath := None |}.

Definition workspace : Volume :=
  {| Volume_Metadata := meta "vol-workspace";
     EmptyDir := Some {| Medium := "memory"; SizeLimit := 1024 |};
     HostPath := None |}.

Definition socket : Volume :=
  {| Volume_Metadata := meta "vol-socket";
     EmptyDir := None;
     HostPath := Some {| HostPath_Path := "/var/run/docker.sock" |} |}.

Definition netrc : File :=
  {| File_Metadata := meta "netrc"; Data := of_string "machine github.com" |}.

Definition build (policy : PullPolicy) : Step :=
  {| Step_Metadata := meta "step-build";
     Step_Docker := Some {| Image := "golang:1.11"; Step_PullPolicy := policy |};
     Step_Files :=
       [ {| FileMount_Name := "missing"; FileMount_Path := "/root/.ssh";
            Mode := 384 |};
         {| FileMount_Name := "netrc"; FileMount_Path := "/root/.netrc";
            Mode := 384 |} ] |}.

Definition pipeline : Spec :=
  {| Spec_Metadata := meta "run-1";
     Steps := [build PullDefault];
     Spec_Files := [netrc];
     Spec_Docker :=
       Some {| Auths := []; Volumes := [cache; socket; workspace] |} |}.

Definition mocked : dockerEngine Script :=
  {| spec := pipeline; client := scripted |}.

Definition local : dockerEngine Daemon :=
  {| spec := pipeline; client := daemon |}.

Definition running : Daemon :=
  {| volumes := {[ "vol-cache"; "vol-workspace" ]};
     networks := {[ "run-1" ]};
     inUse := ∅ |}.

(** The image of the step is absent locally at the first creation. *)
Definition notFound : error := imageNotFoundError "golang:1.11".

Definition absentImage : Script := script [Some notFound].



(** The first volume cannot be removed. *)
Definition busyVolume : Script := script [None; None; Some busy].

Definition golang : DockerStep :=
  {| Image := "golang:1.11"; Step_PullPolicy := PullDefault |}.

Definition golangAlways : DockerStep :=
  {| Image := "golang:1.11"; Step_PullPolicy := PullAlways |}.

Definition netrcMount : FileMount :=
  {| FileMount_Name := "netrc"; FileMount_Path := "/root/.netrc";
     Mode := 384 |}.

(** The container is created and the copy of the payload fails. *)
Definition copyFails : Script := script [None; Some busy].



(** References with a digest. *)
Definition pinned : string :=
  "alpine@sha256:0123456789abcdef0123456789abcdef0123456789abcdef0123456789abcdef".

Definition pinnedLatest : string :=
  "alpine:latest@sha256:0123456789abcdef0123456789abcdef0123456789abcdef0123456789abcdef".

(** The pull before the creation succeeds, the creation finds no image,
    the second pull and the second creation succeed. *)
Definition pulledTwice : Script := script [None; Some notFound; None; None].

Definition golangNever : DockerStep :=
  {| Image := "golang:1.11"; Step_PullPolicy := PullNever |}.

(** The reference that the parser returns for [pinnedLatest]. *)
Definition pinnedLatestNamed : reference.Named :=
  reference.mkNamed "docker.io" "library/alpine" "latest"
    "sha256:0123456789abcdef0123456789abcdef0123456789abcdef0123456789abcdef".



(** The daemon before [Setup]. *)
Definition idle : Daemon := {| volumes := ∅; networks := ∅; inUse := ∅ |}.

End examples.

(** * Properties *)

(** ** Runs *)

Section RunFacts.

Context `{Collaborators} {W : Type}.

Lemma bind_unfold {A B} (m : Run W A) (k : A -> Run W B) w :
  bind m k w = (result (k (result (m w)) (world (m w))),
                world (k (result (m w)) (world (m w))),
                trace (m w) ++ trace (k (result (m w)) (world (m w)))).
Proof.
  unfold bind, result, world, trace.
  destruct (m w) as [[a w1] t1]; simpl.
  destruct (k a w1) as [[b w2] t2]; reflexivity.
Qed.

Lemma invoke_unfold {R} (c : Call) (toAnswer : R -> Answer)
    (method : W -> R * W) w :
  invoke c toAnswer method w =
    ((method w).1, (method w).2, [mkEvent c (toAnswer (method w).1)]).
Proof. unfold invoke. destruct (method w); reflexivity. Qed.

Lemma ret_unfold {A} (a : A) (w : W) : ret a w = (a, w, []).
Proof. reflexivity. Qed.

End RunFacts.

(** Unfolds one run into its result, state and trace. *)
Ltac run_simpl :=
  repeat (rewrite ?bind_unfold, ?invoke_unfold, ?ret_unfold;
          unfold result, world, trace; simpl).

(** ** The resolver of image references *)

Section StringFacts.

Lemma byte_eqb_eq a b : byte_eqb a b = true <-> a = b.
Proof. apply Ascii.eqb_eq. Qed.

Lemma bytes_eqb_eq a b : bytes_eqb a b = true <-> a = b.
Proof.
  revert b. induction a as [|x a IH]; intros [|y b]; simpl;
    try (split; [discriminate|discriminate]); [tauto|].
  rewrite andb_true_iff, byte_eqb_eq, IH. split.
  - intros [-> ->]. reflexivity.
  - intros [= -> ->]. split; reflexivity.
Qed.

Lemma of_string_app a b : of_string (a +:+ b) = of_string a ++ of_string b.
Proof.
  unfold of_string. induction a as [|c a IH]; simpl; [reflexivity|].
  rewrite <- IH. reflexivity.
Qed.

Lemma of_to_string l : of_string (to_string l) = l.
Proof. apply String.list_ascii_of_string_of_list_ascii. Qed.

Lemma to_of_string s : to_string (of_string s) = s.
Proof. apply String.string_of_list_ascii_of_string. Qed.

Lemma to_string_nil l : to_string l = EmptyString <-> l = [].
Proof. destruct l; simpl; split; intros Heq; congruence. Qed.

Lemma HasSuffixBytes_spec s suffix :
  HasSuffixBytes s suffix = true <-> exists front, s = front ++ suffix.
Proof.
  unfold HasSuffixBytes. rewrite andb_true_iff, bytes_eqb_eq. split.
  - intros [_ Hdrop]. exists (take (length s - length suffix) s).
    pose proof (take_drop (length s - length suffix) s) as Hsplit.
    rewrite Hdrop in Hsplit. symmetry. exact Hsplit.
  - intros [front ->]. rewrite length_app. split.
    + apply Nat.leb_le. lia.
    + replace (length front + length suffix - length suffix)%nat
        with (length front) by lia.
      apply drop_app_length.
Qed.

Lemma cut_spec r s a b : cut r s = Some (a, b) -> s = a ++ r :: b.
Proof.
  revert a. induction s as [|c s IH]; intros a; simpl; [discriminate|].
  destruct (byte_eqb r c) eqn:Hrc.
  - apply byte_eqb_eq in Hrc. intros [= <- <-]. subst c. reflexivity.
  - destruct (cut r s) as [[a' b']|]; [|discriminate].
    intros [= <- <-]. simpl. rewrite (IH a' eq_refl). reflexivity.
Qed.

Lemma cut_last_spec r s a b : cut_last r s = Some (a, b) -> s = a ++ r :: b.
Proof.
  unfold cut_last. destruct (cut r (rev s)) as [[a' b']|] eqn:Hcut;
    [|discriminate].
  intros [= <- <-]. apply cut_spec in Hcut.
  rewrite <- (rev_involutive s), Hcut, rev_app_distr. simpl.
  rewrite <- app_assoc. reflexivity.
Qed.

Lemma split_Forall (Q : ascii -> Prop) r s :
  Q r -> Forall (Forall Q) (split r s) -> Forall Q s.
Proof.
  intros Hr. induction s as [|c s IH]; [constructor|]. simpl.
  destruct (byte_eqb r c) eqn:Hrc.
  - apply byte_eqb_eq in Hrc. subst c. intros Hall.
    apply Forall_cons in Hall. destruct Hall as [_ Hall].
    constructor; [exact Hr|apply IH, Hall].
  - destruct (split r s) as [|seg segs].
    + intros Hall. apply Forall_cons in Hall. destruct Hall as [Hc _].
      apply Forall_cons in Hc. destruct Hc as [Hc _].
      constructor; [exact Hc|]. apply IH. constructor.
    + intros Hall. apply Forall_cons in Hall. destruct Hall as [Hseg Hall].
      apply Forall_cons in Hseg. destruct Hseg as [Hc Hseg].
      constructor; [exact Hc|]. apply IH. constructor; assumption.
Qed.

End StringFacts.

Section ReferenceFacts.

Import reference.

(** Decides a fact about one byte by going through the 256 bytes. *)
Ltac by_byte c :=
  destruct c as [[] [] [] [] [] [] [] []]; vm_compute;
  try reflexivity; try discriminate; try congruence.

Lemma legal_class c :
  lower_alnum c || alnum c || word c || xdigit c || letter c || is_digit c
  || algorithmSeparator c || byte_eqb c "." || byte_eqb c "-"
  || byte_eqb c "_" || byte_eqb c "/" || byte_eqb c ":" || byte_eqb c "@"
  = true ->
  legal c = true.
Proof. by_byte c. Qed.

Lemma tag_byte_not_colon c :
  word c || byte_eqb c "." || byte_eqb c "-" = true -> c <> ":"%char.
Proof. intros Hc ->. vm_compute in Hc. discriminate. Qed.

Lemma forallb_Forall {A} (f : A -> bool) l :
  forallb f l = true -> Forall (fun x => f x = true) l.
Proof.
  induction l as [|x l IH]; simpl; [constructor|].
  rewrite andb_true_iff. intros [Hx Hl]. constructor; [exact Hx|apply IH, Hl].
Qed.

Lemma class_legal (f : ascii -> bool) s :
  (forall c, f c = true -> legal c = true) ->
  forallb f s = true -> Forall (fun c => legal c = true) s.
Proof.
  intros Hf Hs. eapply Forall_impl; [apply forallb_Forall, Hs|]. exact Hf.
Qed.

Lemma nameComponentFrom_legal st s :
  nameComponentFrom st s = true -> Forall (fun c => legal c = true) s.
Proof.
  revert st. induction s as [|c s IH]; intros st Hs; [constructor|].
  simpl in Hs.
  destruct (lower_alnum c) eqn:H1.
  { constructor; [apply legal_class; rewrite H1; reflexivity|eauto]. }
  destruct (byte_eqb c ".") eqn:H2.
  { constructor; [apply byte_eqb_eq in H2; subst c; reflexivity|].
    destruct st; try discriminate; eauto. }
  destruct (byte_eqb c "_") eqn:H3.
  { constructor; [apply byte_eqb_eq in H3; subst c; reflexivity|].
    destruct st; try discriminate; eauto. }
  destruct (byte_eqb c "-") eqn:H4; [|discriminate].
  constructor; [apply byte_eqb_eq in H4; subst c; reflexivity|].
  destruct st; try discriminate; eauto.
Qed.

Lemma segments_legal (f : bytes -> bool) r s :
  legal r = true ->
  (forall seg, f seg = true -> Forall (fun c => legal c = true) seg) ->
  forallb f (split r s) = true -> Forall (fun c => legal c = true) s.
Proof.
  intros Hr Hf Hs. apply (split_Forall _ r); [exact Hr|].
  eapply Forall_impl; [apply forallb_Forall, Hs|]. exact Hf.
Qed.

Lemma pathRegexp_legal s :
  pathRegexp s = true -> Forall (fun c => legal c = true) s.
Proof.
  apply segments_legal; [reflexivity|].
  intros seg. apply nameComponentFrom_legal.
Qed.

Lemma domainComponent_legal s :
  domainComponent s = true -> Forall (fun c => legal c = true) s.
Proof.
  unfold domainComponent. destruct s as [|c s]; [discriminate|].
  rewrite !andb_true_iff. intros [[_ Hall] _].
  revert Hall. apply class_legal. intros x Hx. by_byte x.
Qed.

Lemma domainRegexp_legal s :
  domainRegexp s = true -> Forall (fun c => legal c = true) s.
Proof.
  unfold domainRegexp, domainHost, port.
  destruct (cut ":" s) as [[h p]|] eqn:Hcut.
  - apply cut_spec in Hcut. subst s. rewrite andb_true_iff. intros [Hh Hp].
    apply Forall_app. split.
    + revert Hh. apply segments_legal; [reflexivity|].
      apply domainComponent_legal.
    + constructor; [reflexivity|]. destruct p as [|d p]; [discriminate|].
      revert Hp. apply class_legal. intros x Hx. by_byte x.
  - apply segments_legal; [reflexivity|]. apply domainComponent_legal.
Qed.

Lemma tagRegexp_bytes s :
  tagRegexp s = true ->
  Forall (fun c => legal c = true /\ c <> ":"%char) s.
Proof.
  unfold tagRegexp. destruct s as [|c s]; [discriminate|].
  rewrite !andb_true_iff. intros [[Hc Hs] _]. constructor.
  - split; [by_byte c|]. apply tag_byte_not_colon. rewrite Hc. reflexivity.
  - eapply Forall_impl; [apply forallb_Forall, Hs|]. simpl. intros x Hx.
    split; [by_byte x|]. apply tag_byte_not_colon, Hx.
Qed.

Lemma algorithmFrom_legal afterLetter s :
  algorithmFrom afterLetter s = true -> Forall (fun c => legal c = true) s.
Proof.
  revert afterLetter. induction s as [|c s IH]; intros b Hs; [constructor|].
  simpl in Hs.
  destruct (letter c) eqn:H1.
  { constructor; [by_byte c|eauto]. }
  destruct (is_digit c) eqn:H2.
  { apply andb_true_iff in Hs. destruct Hs as [_ Hs].
    constructor; [by_byte c|eauto]. }
  destruct (algorithmSeparator c) eqn:H3; [|discriminate].
  apply andb_true_iff in Hs. destruct Hs as [_ Hs].
  constructor; [by_byte c|]. destruct s as [|d s]; [discriminate|].
  apply andb_true_iff in Hs. destruct Hs as [_ Hs]. eauto.
Qed.

Lemma digestRegexp_legal s :
  digestRegexp s = true -> Forall (fun c => legal c = true) s.
Proof.
  unfold digestRegexp. destruct (cut ":" s) as [[a h]|] eqn:Hcut;
    [|discriminate].
  apply cut_spec in Hcut. subst s. rewrite !andb_true_iff.
  intros [[Ha Hh] _]. apply Forall_app. split.
  - eapply algorithmFrom_legal, Ha.
  - constructor; [reflexivity|]. revert Hh. apply class_legal.
    intros x Hx. by_byte x.
Qed.

Lemma anchoredNameRegexp_legal s :
  matched (anchoredNameRegexp s) = true -> Forall (fun c => legal c = true) s.
Proof.
  unfold anchoredNameRegexp.
  destruct (cut "/" s) as [[d p]|] eqn:Hcut.
  - destruct (domainRegexp d && pathRegexp p) eqn:Hdp.
    + intros _. apply cut_spec in Hcut. subst s.
      apply andb_true_iff in Hdp. destruct Hdp as [Hd Hp].
      apply Forall_app. split; [apply domainRegexp_legal, Hd|].
      constructor; [reflexivity|apply pathRegexp_legal, Hp].
    + destruct (pathRegexp s) eqn:Hs; [|discriminate].
      intros _. apply pathRegexp_legal, Hs.
  - destruct (pathRegexp s) eqn:Hs; [|discriminate].
    intros _. apply pathRegexp_legal, Hs.
Qed.

(** A match of [ReferenceRegexp] has legal bytes only, and no ":" in its
    tag. *)
Lemma ReferenceRegexp_bytes s name tg dgst :
  ReferenceRegexp s = Some (name, tg, dgst) ->
  Forall (fun c => legal c = true) s /\ Forall (fun c => c <> ":"%char) tg.
Proof.
  unfold ReferenceRegexp.
  assert (Hfront : forall front name0 tg0,
    match cut_last ":" front with
    | Some (n, t) =>
        if ContainsRune t "/" then (front, None) else (n, Some t)
    | None => (front, None)
    end = (name0, tg0) ->
    matched (anchoredNameRegexp name0) = true ->
    from_option tagRegexp true tg0 = true ->
    Forall (fun c => legal c = true) front
    /\ Forall (fun c => c <> ":"%char) (default [] tg0)).
  { intros front name0 tg0 Hsplit Hname Htag.
    destruct (cut_last ":" front) as [[n t]|] eqn:Hcut.
    - destruct (ContainsRune t "/").
      + injection Hsplit as <- <-. split; [|constructor].
        apply anchoredNameRegexp_legal, Hname.
      + injection Hsplit as <- <-. apply cut_last_spec in Hcut. subst front.
        simpl in Htag. apply tagRegexp_bytes in Htag. split.
        * apply Forall_app. split; [apply anchoredNameRegexp_legal, Hname|].
          constructor; [reflexivity|].
          eapply Forall_impl; [exact Htag|]. intros c Hc. apply Hc.
        * simpl. eapply Forall_impl; [exact Htag|]. intros c Hc. apply Hc.
    - injection Hsplit as <- <-. split; [|constructor].
      apply anchoredNameRegexp_legal, Hname. }
  destruct (cut "@" s) as [[front d]|] eqn:Hat.
  - destruct (match cut_last ":" front with
              | Some (n, t) =>
                  if ContainsRune t "/" then (front, None) else (n, Some t)
              | None => (front, None)
              end) as [name0 tg0] eqn:Hsplit.
    destruct (matched (anchoredNameRegexp name0) && from_option tagRegexp true tg0
              && from_option digestRegexp true (Some d)) eqn:Hmatch;
      [|discriminate].
    intros [= <- <- <-]. apply andb_true_iff in Hmatch.
    destruct Hmatch as [Hmatch Hd]. apply andb_true_iff in Hmatch.
    destruct Hmatch as [Hname Htag].
    destruct (Hfront _ _ _ Hsplit Hname Htag) as [Hlegal Hcolon].
    split; [|exact Hcolon]. apply cut_spec in Hat. subst s.
    apply Forall_app. split; [exact Hlegal|].
    constructor; [reflexivity|]. apply digestRegexp_legal, Hd.
  - destruct (match cut_last ":" s with
              | Some (n, t) =>
                  if ContainsRune t "/" then (s, None) else (n, Some t)
              | None => (s, None)
              end) as [name0 tg0] eqn:Hsplit.
    destruct (matched (anchoredNameRegexp name0) && from_option tagRegexp true tg0
              && from_option digestRegexp true None) eqn:Hmatch;
      [|discriminate].
    intros [= <- <- <-]. apply andb_true_iff in Hmatch.
    destruct Hmatch as [Hmatch _]. apply andb_true_iff in Hmatch.
    destruct Hmatch as [Hname Htag].
    exact (Hfront _ _ _ Hsplit Hname Htag).
Qed.

(** The normalisation on references of the kinds that the documentation
    of the package lists. *)
Example normalize_private_registry :
  parseImage "myregistry.example.com/team/app:stable"
  = inr ("myregistry.example.com/team/app:stable", "myregistry.example.com",
         false).
Proof. reflexivity. Qed.

Example normalize_port :
  parseImage "localhost:5000/foo"
  = inr ("localhost:5000/foo:latest", "localhost:5000", true).
Proof. reflexivity. Qed.

Example normalize_user_repository :
  parseImage "drone/drone"
  = inr ("docker.io/drone/drone:latest", "docker.io", true).
Proof. reflexivity. Qed.

Example normalize_legacy_domain :
  parseImage "index.docker.io/library/ubuntu:18.04"
  = inr ("docker.io/library/ubuntu:18.04", "docker.io", false).
Proof. reflexivity. Qed.

Example normalize_uppercase :
  parseImage "Alpine" = inl ErrNotLowercase.
Proof. reflexivity. Qed.

Example normalize_empty_tag :
  parseImage "alpine:" = inl ErrReferenceInvalidFormat.
Proof. reflexivity. Qed.

Example normalize_separators :
  parseImage "a..b" = inl ErrReferenceInvalidFormat
  /\ parseImage "a__b-c.d"
     = inr ("docker.io/library/a__b-c.d:latest", "docker.io", true).
Proof. split; reflexivity. Qed.

Lemma digestValidate_error s err :
  digestValidate s = Some err -> err ∈ parseErrors.
Proof.
  unfold digestValidate, parseErrors. rewrite !elem_of_cons.
  destruct (cut ":" s) as [[a h]|]; [|intros [= <-]; auto 20].
  destruct a as [|x a]; [intros [= <-]; auto 20|].
  destruct h as [|y h]; [intros [= <-]; auto 20|].
  destruct (algorithmSize _) as [size|].
  - destruct (negb _); [intros [= <-]; auto 20|].
    destruct (forallb _ _); [discriminate|intros [= <-]; auto 20].
  - destruct (DigestRegexpAnchored s); intros [= <-]; auto 20.
Qed.

Lemma Parse_error s err : Parse s = inl err -> err ∈ parseErrors.
Proof.
  unfold Parse. destruct (ReferenceRegexp s) as [[[name tg] dgst]|].
  - destruct (_ <? _)%nat;
      [intros [= <-]; unfold parseErrors; rewrite !elem_of_cons; auto 20|].
    destruct (default _ _) as [d p]. destruct dgst as [|c dgst]; [discriminate|].
    destruct (digestValidate (c :: dgst)) as [derr|] eqn:Hd; [|discriminate].
    intros [= <-]. eapply digestValidate_error, Hd.
  - unfold parseErrors. rewrite !elem_of_cons.
    destruct s; [intros [= <-]; auto 20|].
    destruct (matched _); intros [= <-]; auto 20.
Qed.

(** A reference that [Parse] accepts has legal bytes only, and its tag has
    no ":". *)
Lemma Parse_bytes s named :
  Parse s = inr named ->
  Forall (fun c => legal c = true) s
  /\ Forall (fun c => c <> ":"%char) (of_string (tag named)).
Proof.
  unfold Parse.
  destruct (ReferenceRegexp s) as [[[name tg] dgst]|] eqn:Hmatch.
  - apply ReferenceRegexp_bytes in Hmatch.
    destruct (_ <? _)%nat; [discriminate|].
    destruct (default _ _) as [d p].
    assert (Hnamed : @inr error Named
                       (mkNamed (to_string d) (to_string p) (to_string tg)
                                (to_string dgst)) = inr named ->
              Forall (fun c => legal c = true) s
              /\ Forall (fun c => c <> ":"%char) (of_string (tag named))).
    { intros [= <-]. simpl. rewrite of_to_string. exact Hmatch. }
    destruct dgst as [|c dgst]; [exact Hnamed|].
    destruct (digestValidate (c :: dgst)); [discriminate|exact Hnamed].
  - destruct s; [discriminate|]. destruct (matched _); discriminate.
Qed.

Lemma splitDockerDomain_legal name domain remainder :
  splitDockerDomain name = (domain, remainder) ->
  Forall (fun c => legal c = true) (domain ++ "/"%char :: remainder) ->
  Forall (fun c => legal c = true) name.
Proof.
  unfold splitDockerDomain.
  assert (Hrest : forall (b : bool) (rest : bytes),
    Forall (fun c => legal c = true)
      (if b then of_string officialRepoName ++ "/"%char :: rest else rest) ->
    Forall (fun c => legal c = true) rest).
  { intros b rest. destruct b; [|trivial].
    intros Hall. apply Forall_app in Hall. destruct Hall as [_ Hall].
    apply Forall_cons in Hall. apply Hall. }
  assert (Hdom : forall (dom : bytes),
    Forall (fun c => legal c = true)
      (if bytes_eqb dom (of_string legacyDefaultDomain)
       then of_string defaultDomain else dom) ->
    Forall (fun c => legal c = true) dom).
  { intros dom. destruct (bytes_eqb dom _) eqn:Heq; [|trivial].
    apply bytes_eqb_eq in Heq. subst dom. intros _.
    apply forallb_Forall. reflexivity. }
  assert (Hpair : forall (dom rest : bytes),
    Forall (fun c => legal c = true)
      ((if bytes_eqb dom (of_string legacyDefaultDomain)
        then of_string defaultDomain else dom)
       ++ "/"%char ::
       (if bytes_eqb
             (if bytes_eqb dom (of_string legacyDefaultDomain)
              then of_string defaultDomain else dom)
             (of_string defaultDomain)
           && negb (ContainsRune rest "/")
        then of_string officialRepoName ++ "/"%char :: rest
        else rest)) ->
    Forall (fun c => legal c = true) dom
    /\ Forall (fun c => legal c = true) rest).
  { intros dom rest Hall. apply Forall_app in Hall. destruct Hall as [Hd Hall].
    apply Forall_cons in Hall. destruct Hall as [_ Hall].
    split; [apply Hdom, Hd|eapply Hrest, Hall]. }
  destruct (cut "/" name) as [[d r]|] eqn:Hcut.
  - apply cut_spec in Hcut. subst name.
    destruct (negb (ContainsAny d (of_string ".:"))
              && negb (bytes_eqb d (of_string "localhost"))).
    + intros Heq Hall. injection Heq as Hd Hr. rewrite <- Hd, <- Hr in Hall.
      apply (Hpair (of_string defaultDomain) (d ++ "/"%char :: r) Hall).
    + intros Heq Hall. injection Heq as Hd Hr. rewrite <- Hd, <- Hr in Hall.
      destruct (Hpair d r Hall) as [Hdl Hrl].
      apply Forall_app. split; [exact Hdl|].
      constructor; [reflexivity|exact Hrl].
  - intros Heq Hall. injection Heq as Hd Hr. rewrite <- Hd, <- Hr in Hall.
    apply (Hpair (of_string defaultDomain) name Hall).
Qed.

Lemma ParseNormalizedNamed_bytes s named :
  ParseNormalizedNamed s = inr named ->
  Forall (fun c => legal c = true) (of_string s)
  /\ Forall (fun c => c <> ":"%char) (of_string (tag named)).
Proof.
  unfold ParseNormalizedNamed.
  destruct (anchoredIdentifierRegexp _); [discriminate|].
  destruct (splitDockerDomain (of_string s)) as [dom rest] eqn:Hsplit.
  destruct (negb _); [discriminate|].
  intros Hparse. apply Parse_bytes in Hparse. destruct Hparse as [Hall Htag].
  split; [|exact Htag]. eapply splitDockerDomain_legal; eassumption.
Qed.

Lemma ParseNormalizedNamed_error s err :
  ParseNormalizedNamed s = inl err -> isParseError err.
Proof.
  unfold ParseNormalizedNamed, isParseError.
  destruct (anchoredIdentifierRegexp _); [intros [= <-]; right; eauto|].
  destruct (splitDockerDomain (of_string s)) as [dom rest].
  destruct (negb _);
    [intros [= <-]; left; unfold parseErrors; rewrite !elem_of_cons; auto 20|].
  intros Hparse. left. eapply Parse_error, Hparse.
Qed.

(** A name, ":" and a tag without ":" end in ":latest" exactly when the
    tag is "latest". *)
Lemma latest_suffix (name t : bytes) :
  Forall (fun c => c <> ":"%char) t ->
  HasSuffixBytes (name ++ ":"%char :: t) (of_string ":latest") = true
  <-> t = of_string "latest".
Proof.
  intros Hcolon. rewrite HasSuffixBytes_spec. split.
  - intros [front Heq]. apply List.app_eq_app in Heq.
    destruct Heq as [a [[_ Ha]|[_ Ha]]].
    + destruct a as [|x a]; [injection Ha as <-; reflexivity|].
      do 7 (destruct a as [|? a]; [discriminate|]). discriminate.
    + destruct a as [|x a]; [injection Ha as ->; reflexivity|].
      injection Ha as <- ->. apply Forall_app in Hcolon.
      destruct Hcolon as [_ Hcolon]. apply Forall_cons in Hcolon.
      destruct Hcolon as [Hne _]. contradiction.
  - intros ->. exists name. reflexivity.
Qed.

Lemma parseImage_error s err : parseImage s = inl err -> InvalidReference err.
Proof.
  unfold parseImage, InvalidReference.
  destruct (ParseNormalizedNamed s) as [perr|named] eqn:Hparse; [|discriminate].
  intros [= <-]. exact (ParseNormalizedNamed_error _ _ Hparse).
Qed.

Lemma of_string_inj a b : of_string a = of_string b -> a = b.
Proof. intros Heq. rewrite <- (to_of_string a), Heq. apply to_of_string. Qed.

Lemma append_empty_r s : s +:+ EmptyString = s.
Proof. apply of_string_inj. rewrite of_string_app. apply app_nil_r. Qed.

Lemma eqb_empty_false s : String.eqb s EmptyString = false <-> s <> EmptyString.
Proof. rewrite <- String.eqb_neq. reflexivity. Qed.

(** The canonical string and the flag of a reference with a tag and
    without digest. *)
Lemma String_tagged r :
  tag r <> EmptyString -> digest r = EmptyString ->
  Forall (fun c => c <> ":"%char) (of_string (tag r)) ->
  String r = Name r +:+ ":" +:+ tag r
  /\ (HasSuffix (String r) ":latest" = true <-> tag r = "latest").
Proof.
  intros Htag Hdigest Hcolon. unfold String.
  apply eqb_empty_false in Htag. rewrite Htag, Hdigest. simpl.
  rewrite append_empty_r. split; [reflexivity|].
  unfold HasSuffix. rewrite of_string_app.
  change (of_string (":" +:+ tag r)) with (":"%char :: of_string (tag r)).
  rewrite (latest_suffix _ _ Hcolon). split.
  - apply of_string_inj.
  - intros ->. reflexivity.
Qed.

(** C5, as amended. For a reference that the parser accepts and that
    carries no digest, [parseImage] puts the tag "latest" on the reference
    when it has none and keeps the tag that it has; the canonical string is
    the name, ":" and that tag, and the flag is true exactly when the tag
    is "latest". *)
Theorem parseImage_forces_tag s named :
  ParseNormalizedNamed s = inr named ->
  digest named = EmptyString ->
  tag (TagNameOnly named)
  = (if String.eqb (tag named) EmptyString then "latest" else tag named)
  /\ tag (TagNameOnly named) <> EmptyString
  /\ exists latest,
       parseImage s
       = inr (Name named +:+ ":" +:+ tag (TagNameOnly named),
              domain named, latest)
       /\ (latest = true <-> tag (TagNameOnly named) = "latest").
Proof.
  intros Hparse Hdigest.
  destruct (ParseNormalizedNamed_bytes _ _ Hparse) as [_ Hcolon].
  unfold parseImage. rewrite Hparse.
  assert (Htagged :
    TagNameOnly named
    = mkNamed (domain named) (path named)
        (if String.eqb (tag named) EmptyString then "latest" else tag named)
        EmptyString).
  { unfold TagNameOnly, IsNameOnly, WithTag. simpl. rewrite Hdigest.
    destruct (String.eqb (tag named) EmptyString) eqn:Htag; simpl.
    - reflexivity.
    - destruct named as [d p t dg]. simpl in *. subst dg. reflexivity. }
  assert (Hcolon' : Forall (fun c => c <> ":"%char)
                      (of_string (tag (TagNameOnly named)))).
  { rewrite Htagged. simpl.
    destruct (String.eqb (tag named) EmptyString); [|exact Hcolon].
    repeat constructor; discriminate. }
  assert (Hne : tag (TagNameOnly named) <> EmptyString).
  { rewrite Htagged. simpl.
    destruct (String.eqb (tag named) EmptyString) eqn:Htag; [discriminate|].
    apply eqb_empty_false, Htag. }
  assert (Hdigest' : digest (TagNameOnly named) = EmptyString)
    by (rewrite Htagged; reflexivity).
  destruct (String_tagged _ Hne Hdigest' Hcolon') as [Hstring Hlatest].
  split; [rewrite Htagged; reflexivity|]. split; [exact Hne|].
  exists (HasSuffix (String (TagNameOnly named)) ":latest").
  split; [|exact Hlatest].
  rewrite Hstring. unfold Domain, Name. rewrite Htagged. reflexivity.
Qed.

(** C6. The resolver on the examples: "alpine" and "alpine:3.9" resolve
    as stated; the empty string is refused, and so is every string with a
    byte that is not legal in a reference, with an error of the parser. *)
Theorem parseImage_examples :
  parseImage "alpine"
  = inr ("docker.io/library/alpine:latest", "docker.io", true)
  /\ parseImage "alpine:3.9"
     = inr ("docker.io/library/alpine:3.9", "docker.io", false)
  /\ (exists err, parseImage EmptyString = inl err /\ InvalidReference err)
  /\ (forall s c,
        c ∈ of_string s -> legal c = false ->
        exists err, parseImage s = inl err /\ InvalidReference err).
Proof.
  split; [reflexivity|]. split; [reflexivity|]. split.
  - eexists. split; [reflexivity|]. left. unfold parseErrors.
    rewrite !elem_of_cons. auto 20.
  - intros s c Hin Hillegal.
    destruct (parseImage s) as [err|[[canonical dom] latest]] eqn:Hparse.
    + exists err. split; [reflexivity|]. exact (parseImage_error _ _ Hparse).
    + exfalso. unfold parseImage in Hparse.
      destruct (ParseNormalizedNamed s) as [err|named] eqn:Hnamed;
        [discriminate|].
      destruct (ParseNormalizedNamed_bytes _ _ Hnamed) as [Hall _].
      rewrite Forall_forall in Hall. rewrite (Hall c Hin) in Hillegal.
      discriminate.
Qed.

End ReferenceFacts.

(** ** Setup *)

Section SetupFacts.

Context `{Collaborators} {W : Type}.
Implicit Types (e : dockerEngine W) (w : W).

(** The loop creates the ephemeral volumes in order and stops at the
    first failure. *)
Lemma Setup_volumes_trace e vols w :
  let r := Setup_volumes e vols w in
  let ephemeral := filter (fun vol => isEphemeral vol = true) vols in
  (result r = None
   /\ trace r = map (fun vol => succeeded (volumeCreateCall (spec e) vol))
                    ephemeral)
  \/ (exists done vol rest err,
        ephemeral = done ++ vol :: rest
        /\ trace r =
             map (fun vol => succeeded (volumeCreateCall (spec e) vol)) done
             ++ [failed (volumeCreateCall (spec e) vol) err]
        /\ result r = Some err).
Proof.
  revert w. induction vols as [|vol vols IH]; intros w; simpl.
  - left. split; reflexivity.
  - destruct (EmptyDir vol) as [dir|] eqn:Hdir.
    + rewrite filter_cons_True by (unfold isEphemeral; rewrite Hdir; done).
      unfold clientVolumeCreate. run_simpl.
      destruct (docker.VolumeCreate (client e) _ w) as [[err|] w1]; simpl.
      * right.
        exists [], vol, (filter (fun v => isEphemeral v = true) vols), err.
        repeat split; reflexivity.
      * specialize (IH w1). cbv zeta in IH. unfold result, trace in IH.
        destruct IH as [[Hres Htr]|(done & v & rest & err & Heq & Htr & Hres)].
        -- left. split; [exact Hres|]. rewrite Htr. reflexivity.
        -- right. exists (vol :: done), v, rest, err.
           split; [rewrite Heq; reflexivity|].
           split; [|exact Hres]. rewrite Htr. reflexivity.
    + rewrite filter_cons_False by (unfold isEphemeral; rewrite Hdir; done).
      apply IH.
Qed.

(** The two shapes of a run of [Setup]. *)
Lemma Setup_shape e w :
  let r := Setup e w in
  (trace r =
     map (fun vol => succeeded (volumeCreateCall (spec e) vol))
         (ephemeralVolumes (spec e))
     ++ [mkEvent (networkCreateCall (spec e)) (AnswerError (result r))])
  \/ (exists done vol rest err,
        ephemeralVolumes (spec e) = done ++ vol :: rest
        /\ trace r =
             map (fun vol => succeeded (volumeCreateCall (spec e) vol)) done
             ++ [failed (volumeCreateCall (spec e) vol) err]
        /\ result r = Some err).
Proof.
  unfold Setup, ephemeralVolumes, declaredVolumes.
  destruct (Spec_Docker (spec e)) as [d|].
  - destruct (Setup_volumes_trace e (Volumes d) w)
      as [[Hres Htr]|(done & v & rest & err & Heq & Htr & Hres)].
    + left. unfold result, trace in *. rewrite bind_unfold.
      unfold result, world, trace. rewrite Hres, Htr.
      unfold clientNetworkCreate. rewrite invoke_unfold. reflexivity.
    + right. exists done, v, rest, err. split; [exact Heq|].
      unfold result, trace in *. rewrite bind_unfold.
      unfold result, world, trace. rewrite Hres, Htr. simpl.
      rewrite app_nil_r. split; reflexivity.
  - left. rewrite filter_nil. unfold clientNetworkCreate. run_simpl.
    reflexivity.
Qed.

(** C4. [Setup] creates a local-driver volume for each declared ephemeral
    volume, in the order of the declaration. Either every creation
    succeeds, and then the bridge network is created and its answer is the
    result of [Setup]; or the first creation that fails ends the run with
    its error: the trace stops at that call, so that no later volume and no
    network is created, and nothing is removed. *)
Theorem Setup_fail_fast e w :
  let r := Setup e w in
  (trace r =
     map (fun vol => succeeded (volumeCreateCall (spec e) vol))
         (ephemeralVolumes (spec e))
     ++ [mkEvent (networkCreateCall (spec e)) (AnswerError (result r))])
  \/ (exists done vol rest err,
        ephemeralVolumes (spec e) = done ++ vol :: rest
        /\ trace r =
             map (fun vol => succeeded (volumeCreateCall (spec e) vol)) done
             ++ [failed (volumeCreateCall (spec e) vol) err]
        /\ result r = Some err).
Proof. apply Setup_shape. Qed.

End SetupFacts.

(** ** Create *)

Section CreateFacts.

Context `{Collaborators} {W : Type}.
Implicit Types (e : dockerEngine W) (w : W) (step : Step).

Lemma omap_resolved_cons s (mount : FileMount) mounts :
  omap (fun mount =>
          match LookupFile s (FileMount_Name mount) with
          | Some file => Some (file, mount)
          | None => None
          end) (mount :: mounts)
  = match LookupFile s (FileMount_Name mount) with
    | Some file => [(file, mount)]
    | None => []
    end
    ++ omap (fun mount =>
               match LookupFile s (FileMount_Name mount) with
               | Some file => Some (file, mount)
               | None => None
               end) mounts.
Proof. simpl. destruct (LookupFile s (FileMount_Name mount)); reflexivity. Qed.

(** The loop over the mounts copies the found payloads in order and stops
    at the first failure. *)
Lemma Create_files_run e step mounts w :
  FilesRun step
    (omap (fun mount =>
             match LookupFile (spec e) (FileMount_Name mount) with
             | Some file => Some (file, mount)
             | None => None
             end) mounts)
    (trace (Create_files e step mounts w))
    (result (Create_files e step mounts w)).
Proof.
  revert w. induction mounts as [|mount mounts IH]; intros w.
  - constructor.
  - rewrite omap_resolved_cons. simpl.
    destruct (LookupFile (spec e) (FileMount_Name mount)) as [file|]; simpl.
    + unfold clientCopyToContainer. run_simpl.
      destruct (docker.CopyToContainer (client e) _ _ _ _ w) as [[err|] w1];
        simpl.
      * apply FilesFailed.
      * apply (FilesCopied step (file, mount)). apply IH.
    + apply IH.
Qed.

Lemma Create_finish_run e step a w :
  FinishRun (spec e) step a
    (trace (Create_finish e step a w)) (result (Create_finish e step a w)).
Proof.
  destruct a as [err|]; simpl.
  - constructor.
  - constructor. apply Create_files_run.
Qed.

Lemma Create_creation_run e step d domain w :
  CreationRun (spec e) step d domain
    (trace (Create_creation e step d (Create_pullopts (spec e) domain) w))
    (result (Create_creation e step d (Create_pullopts (spec e) domain) w)).
Proof.
  unfold Create_creation, Create_container, clientContainerCreate,
    clientImagePull.
  rewrite bind_unfold, invoke_unfold. unfold result, world, trace. simpl.
  destruct (docker.ContainerCreate (client e) _ _ _ _ w) as [a w1]. simpl.
  destruct (docker.IsErrImageNotFound a
            && negb (PullPolicy_eqb (Step_PullPolicy d) PullNever)) eqn:Hrec.
  - rewrite bind_unfold, invoke_unfold. unfold result, world, trace. simpl.
    destruct (docker.ImagePull (client e) _ _ w1) as [[perr|] w2]; simpl.
    + apply CreationPullFailed. exact Hrec.
    + rewrite bind_unfold, invoke_unfold. unfold result, world, trace. simpl.
      destruct (docker.ContainerCreate (client e) _ _ _ _ w2) as [a' w3].
      simpl. apply CreationRetried; [exact Hrec|].
      apply Create_finish_run.
  - apply CreationOnce; [exact Hrec|]. apply Create_finish_run.
Qed.

(** Every run of [Create] on a step with a Docker configuration and an
    image reference that resolves has one of the shapes of [CreateRun]. *)
Lemma Create_run e step w d canonical domain latest :
  Step_Docker step = Some d ->
  parseImage (Image d) = inr (canonical, domain, latest) ->
  CreateRun (spec e) step d domain latest
    (trace (Create e step w)) (result (Create e step w)).
Proof.
  intros Hd Hparse. unfold Create. rewrite Hd, Hparse.
  rewrite bind_unfold. unfold result, world, trace.
  destruct (PullPolicy_eqb (Step_PullPolicy d) PullAlways
            || PullPolicy_eqb (Step_PullPolicy d) PullDefault && latest)
    eqn:Hpull.
  - unfold clientImagePull. rewrite invoke_unfold. simpl.
    destruct (docker.ImagePull (client e) _ _ w) as [[perr|] w1]; simpl.
    + apply CreatePullFailed. exact Hpull.
    + apply CreatePulled; [exact Hpull|]. apply Create_creation_run.
  - simpl. apply CreateNotPulled; [exact Hpull|]. apply Create_creation_run.
Qed.


Lemma recovers_true d a :
  recovers d a = true <->
  docker.IsErrImageNotFound a = true /\ Step_PullPolicy d <> PullNever.
Proof.
  unfold recovers. rewrite andb_true_iff, negb_true_iff.
  destruct (Step_PullPolicy d); simpl; split; intros [Ha Hp]; split;
    try assumption; try reflexivity; try discriminate; congruence.
Qed.

Lemma recovers_false d a :
  recovers d a = false <->
  docker.IsErrImageNotFound a = false \/ Step_PullPolicy d = PullNever.
Proof.
  unfold recovers. rewrite andb_false_iff, negb_false_iff.
  destruct (Step_PullPolicy d); simpl; split; intros [Ha|Hp];
    try (left; assumption); try (right; reflexivity); try discriminate.
Qed.

Lemma FilesRun_no_attempt step found t r :
  FilesRun step found t r -> Forall no_attempt t.
Proof.
  induction 1; repeat constructor; assumption.
Qed.

Lemma FinishRun_no_attempt s step a t r :
  FinishRun s step a t r -> Forall no_attempt t.
Proof.
  destruct 1; [constructor|]. eapply FilesRun_no_attempt; eassumption.
Qed.

Lemma FinishRun_error s step err t r :
  FinishRun s step (Some err) t r -> t = [] /\ r = Some err.
Proof. inversion 1; subst. split; reflexivity. Qed.


(** C1. When the first container creation of [Create] fails because the
    image is absent locally and the pull policy is not [PullNever], what
    follows is one pull and then, when the pull succeeds, one more creation
    and nothing else than copies: a failure of the pull ends the run with
    the error of the pull, and a failure of the second creation ends it with
    that error. Any other answer of the first creation is followed by no
    pull and no creation, and an error in it ends the run with that
    error. *)
Theorem Create_not_found_recovery e step w d canonical domain latest a post :
  Step_Docker step = Some d ->
  parseImage (Image d) = inr (canonical, domain, latest) ->
  first_creation (trace (Create e step w)) = Some (AnswerError a, post) ->
  (docker.IsErrImageNotFound a = true -> Step_PullPolicy d <> PullNever ->
     (exists perr,
        post = [failed (pullCall (spec e) d domain) perr]
        /\ result (Create e step w) = Some perr)
     \/ (exists a' rest,
          post = succeeded (pullCall (spec e) d domain)
                 :: mkEvent (containerCreateCall (spec e) step) (AnswerError a')
                 :: rest
          /\ Forall no_attempt rest
          /\ (forall err, a' = Some err ->
                rest = [] /\ result (Create e step w) = Some err)))
  /\ (docker.IsErrImageNotFound a = false \/ Step_PullPolicy d = PullNever ->
        Forall no_attempt post
        /\ (forall err, a = Some err ->
              post = [] /\ result (Create e step w) = Some err)).
Proof.
  intros Hd Hparse Hfirst.
  pose proof (Create_run e step w d canonical domain latest Hd Hparse) as Hrun.
  assert (Hcreation : exists t,
            CreationRun (spec e) step d domain t (result (Create e step w))
            /\ first_creation t = Some (AnswerError a, post)).
  { inversion Hrun as [perr Hp Ht Hr|t r Hp Hc Ht Hr|t r Hp Hc Ht Hr].
    - rewrite <- Ht in Hfirst. discriminate.
    - exists t. split; [exact Hc|]. rewrite <- Ht in Hfirst. exact Hfirst.
    - exists (trace (Create e step w)). split; [exact Hc|exact Hfirst]. }
  destruct Hcreation as (t & Hc & Ht).
  inversion Hc as [a0 t0 r0 Hrec Hfin Heq Hr|a0 perr Hrec Heq Hr
                  |a0 a' t0 r0 Hrec Hfin Heq Hr];
    subst t; simpl in Ht; injection Ht as Ha Hpost; subst a0 post.
  - apply recovers_false in Hrec. split.
    + intros Hnf Hpol. destruct Hrec as [Hrec|Hrec]; congruence.
    + intros _. split; [eapply FinishRun_no_attempt; eassumption|].
      intros err ->. apply FinishRun_error in Hfin.
      destruct Hfin as [Ht0 Hr0]. split; congruence.
  - apply recovers_true in Hrec. destruct Hrec as [Hnf Hpol]. split.
    + intros _ _. left. exists perr. split; congruence.
    + intros [Hno|Hno]; congruence.
  - apply recovers_true in Hrec. destruct Hrec as [Hnf Hpol]. split.
    + intros _ _. right. exists a', t0. split; [reflexivity|].
      split; [eapply FinishRun_no_attempt; eassumption|].
      intros err ->. apply FinishRun_error in Hfin.
      destruct Hfin as [Ht0 Hr0]. split; congruence.
    + intros [Hno|Hno]; congruence.
Qed.



Lemma copy_events_app t1 t2 :
  copy_events (t1 ++ t2) = copy_events t1 ++ copy_events t2.
Proof. unfold copy_events. apply filter_app. Qed.

Lemma copy_events_none t :
  Forall (fun ev => is_copy (call ev) = false) t -> copy_events t = [].
Proof.
  unfold copy_events. induction 1 as [|ev t Hev _ IH]; [reflexivity|].
  rewrite filter_cons_False by congruence. exact IH.
Qed.

Lemma copy_events_all step found t r :
  FilesRun step found t r -> copy_events t = t.
Proof.
  unfold copy_events. induction 1 as [|f rest t r _ IH|f rest err].
  - reflexivity.
  - rewrite filter_cons_True by reflexivity. rewrite IH. reflexivity.
  - reflexivity.
Qed.

Lemma FilesRun_calls step found t r :
  FilesRun step found t r ->
  (exists n, calls t = take n (map (copyCall step) found))
  /\ (r = None -> calls t = map (copyCall step) found).
Proof.
  induction 1 as [|f rest t r _ [[n IHn] IHall]|f rest err].
  - split; [exists 0%nat|]; reflexivity.
  - split.
    + exists (S n). simpl. rewrite IHn. reflexivity.
    + intros Hr. simpl. rewrite (IHall Hr). reflexivity.
  - split; [exists 1%nat; simpl; rewrite take_0; reflexivity|discriminate].
Qed.

Lemma FilesRun_failure step found t r ev err :
  FilesRun step found t r ->
  ev ∈ t -> answer ev = AnswerError (Some err) ->
  r = Some err /\ last t = Some ev.
Proof.
  induction 1 as [|f rest t r Hrun IH|f rest err']; intros Hin Hans.
  - inversion Hin.
  - apply elem_of_cons in Hin. destruct Hin as [->|Hin]; [discriminate|].
    destruct (IH Hin Hans) as [Hr Hlast]. split; [exact Hr|].
    destruct t as [|ev' t]; [inversion Hin|]. exact Hlast.
  - apply list_elem_of_singleton in Hin. subst ev. simpl in Hans.
    injection Hans as ->. split; reflexivity.
Qed.

Lemma FilesRun_error step found t r err :
  FilesRun step found t r -> r = Some err ->
  exists ev, ev ∈ t /\ answer ev = AnswerError (Some err).
Proof.
  induction 1 as [|f rest t r _ IH|f rest err']; intros Hr.
  - discriminate.
  - destruct (IH Hr) as (ev & Hin & Hans). exists ev.
    split; [right; exact Hin|exact Hans].
  - injection Hr as ->. eexists. split; [left|reflexivity].
Qed.

(** A run of [Create] is a part without copies, then the loop over the
    mounts, unless the part without copies ends in the error that is
    returned. *)
Lemma CreateRun_files s step d domain latest t r :
  CreateRun s step d domain latest t r ->
  exists head tail,
    t = head ++ tail
    /\ Forall (fun ev => is_copy (call ev) = false) head
    /\ (FilesRun step (resolvedMounts s step) tail r
        \/ (tail = []
            /\ exists ev err, last head = Some ev
                              /\ answer ev = AnswerError (Some err)
                              /\ r = Some err)).
Proof.
  assert (Hfinish : forall a head t r,
    FinishRun s step a t r ->
    Forall (fun ev => is_copy (call ev) = false) head ->
    (exists c, last head = Some (mkEvent c (AnswerError a))) ->
    exists head' tail,
      head ++ t = head' ++ tail
      /\ Forall (fun ev => is_copy (call ev) = false) head'
      /\ (FilesRun step (resolvedMounts s step) tail r
          \/ (tail = []
              /\ exists ev err, last head' = Some ev
                                /\ answer ev = AnswerError (Some err)
                                /\ r = Some err))).
  { intros a head t0 r0 Hfin Hhead [c Hlast].
    destruct Hfin as [err|t0 r0 Hfiles].
    - exists head, []. split; [reflexivity|]. split; [exact Hhead|].
      right. split; [reflexivity|]. eexists _, err.
      split; [exact Hlast|]. split; reflexivity.
    - exists head, t0. split; [reflexivity|]. split; [exact Hhead|].
      left. exact Hfiles. }
  assert (Hcreation : forall head t r,
    CreationRun s step d domain t r ->
    Forall (fun ev => is_copy (call ev) = false) head ->
    exists head' tail,
      head ++ t = head' ++ tail
      /\ Forall (fun ev => is_copy (call ev) = false) head'
      /\ (FilesRun step (resolvedMounts s step) tail r
          \/ (tail = []
              /\ exists ev err, last head' = Some ev
                                /\ answer ev = AnswerError (Some err)
                                /\ r = Some err))).
  { intros head t0 r0 Hc Hhead.
    destruct Hc as [a t0 r0 Hrec Hfin|a perr Hrec|a a' t0 r0 Hrec Hfin].
    - rewrite (cons_middle _ head t0), app_assoc.
      apply (Hfinish a); [exact Hfin| |eexists; apply last_snoc].
      apply Forall_app. split; [exact Hhead|]. repeat constructor.
    - eexists (head ++ [_; _]), []. split; [rewrite app_nil_r; reflexivity|].
      split; [apply Forall_app; split; [exact Hhead|repeat constructor]|].
      right. split; [reflexivity|]. eexists _, perr.
      split; [rewrite last_app_cons; reflexivity|].
      split; reflexivity.
    - change (head ++ ?x :: ?y :: ?z :: t0) with (head ++ [x; y; z] ++ t0).
      rewrite app_assoc.
      apply (Hfinish a'); [exact Hfin| |].
      + apply Forall_app. split; [exact Hhead|]. repeat constructor.
      + eexists. rewrite last_app_cons. reflexivity. }
  destruct 1 as [perr Hp|t r Hp Hc|t r Hp Hc].
  - eexists [_], []. split; [reflexivity|]. split; [repeat constructor|].
    right. split; [reflexivity|]. eexists _, perr. repeat split; reflexivity.
  - apply (Hcreation [_]); [exact Hc|]. repeat constructor.
  - apply (Hcreation []); [exact Hc|]. constructor.
Qed.

Lemma resolvedMounts_found s step found :
  found ∈ resolvedMounts s step ->
  found.2 ∈ Step_Files step
  /\ LookupFile s (FileMount_Name found.2) = Some found.1.
Proof.
  unfold resolvedMounts. intros Hin. apply list_elem_of_omap in Hin.
  destruct Hin as (mount & Hmount & Hsome).
  destruct (LookupFile s (FileMount_Name mount)) as [file|] eqn:Hfile;
    [|discriminate].
  injection Hsome as <-. simpl. split; [exact Hmount|exact Hfile].
Qed.

(** C7. A mount whose payload [LookupFile] does not find is skipped: the
    loop over the mounts runs as if the mount were not in the list, so the
    mounts after it are still processed. The copy calls of [Create] are made
    for the found payloads only, in order, and when [Create] returns no
    error every found payload was copied. A copy that fails is the last call
    of the run, and its error is the result. An error that [Create] returns
    is the missing configuration, the error of the resolver, or the error
    of a call: a mount without payload yields none. *)
Theorem Create_unknown_payload_skipped e step w :
  (forall pre mount post w',
     LookupFile (spec e) (FileMount_Name mount) = None ->
     Create_files e step (pre ++ mount :: post) w'
     = Create_files e step (pre ++ post) w')
  /\ (forall found, found ∈ resolvedMounts (spec e) step ->
        LookupFile (spec e) (FileMount_Name found.2) = Some found.1)
  /\ (exists n,
        calls (copy_events (trace (Create e step w)))
        = take n (map (copyCall step) (resolvedMounts (spec e) step)))
  /\ (result (Create e step w) = None ->
        calls (copy_events (trace (Create e step w)))
        = map (copyCall step) (resolvedMounts (spec e) step))
  /\ (forall ev err,
        ev ∈ trace (Create e step w) ->
        is_copy (call ev) = true ->
        answer ev = AnswerError (Some err) ->
        result (Create e step w) = Some err
        /\ last (trace (Create e step w)) = Some ev)
  /\ (forall err,
        result (Create e step w) = Some err ->
        Step_Docker step = None
        \/ (exists d, Step_Docker step = Some d
                      /\ parseImage (Image d) = inl err)
        \/ (exists ev, ev ∈ trace (Create e step w)
                       /\ answer ev = AnswerError (Some err))).
Proof.
  split.
  { intros pre mount post w' Hnone. revert w'.
    induction pre as [|m pre IH]; intros w'; simpl.
    - rewrite Hnone. reflexivity.
    - destruct (LookupFile (spec e) (FileMount_Name m)); [|apply IH].
      unfold bind. destruct (clientCopyToContainer _ _ _ _ _ _) as [[[err|] w1] t1];
        [reflexivity|]. rewrite IH. reflexivity. }
  split; [intros found Hfound; apply (resolvedMounts_found _ _ _ Hfound)|].
  destruct (Step_Docker step) as [d|] eqn:Hd.
  2:{ unfold Create. rewrite Hd. simpl. split; [exists 0%nat; reflexivity|].
      split; [discriminate|]. split; [intros ev err Hin; inversion Hin|].
      intros err _. left. reflexivity. }
  destruct (parseImage (Image d)) as [perr|[[canonical domain] latest]] eqn:Hparse.
  { unfold Create. rewrite Hd, Hparse. simpl. split; [exists 0%nat; reflexivity|].
    split; [discriminate|]. split; [intros ev err Hin; inversion Hin|].
    intros err [= <-]. right. left. exists d.
    split; [reflexivity|exact Hparse]. }
  pose proof (Create_run e step w d canonical domain latest Hd Hparse) as Hrun.
  apply CreateRun_files in Hrun.
  destruct Hrun as (head & tail & Ht & Hhead & Hcases). rewrite Ht.
  rewrite copy_events_app, (copy_events_none head Hhead). simpl.
  destruct Hcases as [Hfiles|(-> & ev0 & err0 & Hlast & Hans & Hr)].
  - rewrite (copy_events_all _ _ _ _ Hfiles).
    destruct (FilesRun_calls _ _ _ _ Hfiles) as [Hn Hall].
    split; [exact Hn|]. split; [exact Hall|]. split.
    + intros ev err Hin Hcopy Hans. apply elem_of_app in Hin.
      destruct Hin as [Hin|Hin].
      * rewrite Forall_forall in Hhead. rewrite (Hhead ev Hin) in Hcopy.
        discriminate.
      * destruct (FilesRun_failure _ _ _ _ _ _ Hfiles Hin Hans) as [Hr Hl].
        split; [exact Hr|]. destruct tail as [|ev' tail]; [inversion Hin|].
        rewrite last_app_cons. exact Hl.
    + intros err Hr. right. right.
      destruct (FilesRun_error _ _ _ _ _ Hfiles Hr) as (ev & Hin & Hans).
      exists ev. split; [apply elem_of_app; right; exact Hin|exact Hans].
  - split; [exists 0%nat; reflexivity|]. split; [rewrite Hr; discriminate|].
    split.
    + intros ev err Hin Hcopy _. rewrite app_nil_r in Hin.
      rewrite Forall_forall in Hhead. rewrite (Hhead ev Hin) in Hcopy.
      discriminate.
    + intros err Herr. right. right. exists ev0. rewrite app_nil_r.
      split; [apply last_Some_elem_of; exact Hlast|]. congruence.
Qed.

End CreateFacts.

(** ** Destroy *)

Section DestroyFacts.

Context `{Collaborators} {W : Type}.
Implicit Types (e : dockerEngine W) (w : W).

(** The loop over the steps kills and removes the container of every step,
    whatever the answers. *)
Lemma Destroy_containers_calls e steps w :
  calls (trace (Destroy_containers e steps w)) = flat_map teardownCalls steps.
Proof.
  revert w. induction steps as [|step steps IH]; intros w; [reflexivity|].
  simpl. unfold clientContainerKill, clientContainerRemove. run_simpl.
  f_equal. f_equal. apply IH.
Qed.

(** The loop over the volumes removes the ephemeral volumes in order and
    stops at the first failure. *)
Lemma Destroy_volumes_trace e vols w :
  (result (Destroy_volumes e vols w) = None
   /\ trace (Destroy_volumes e vols w)
      = map (fun vol => succeeded (volumeRemoveCall vol))
            (filter (fun vol => isEphemeral vol = true) vols))
  \/ (exists done vol rest err,
        filter (fun vol => isEphemeral vol = true) vols = done ++ vol :: rest
        /\ trace (Destroy_volumes e vols w)
           = map (fun vol => succeeded (volumeRemoveCall vol)) done
             ++ [failed (volumeRemoveCall vol) err]
        /\ result (Destroy_volumes e vols w) = Some err).
Proof.
  revert w. induction vols as [|vol vols IH]; intros w; simpl.
  - left. split; reflexivity.
  - destruct (EmptyDir vol) as [dir|] eqn:Hdir.
    + rewrite filter_cons_True by (unfold isEphemeral; rewrite Hdir; done).
      unfold clientVolumeRemove. run_simpl.
      destruct (docker.VolumeRemove (client e) _ _ w) as [[err|] w1]; simpl.
      * right.
        exists [], vol, (filter (fun v => isEphemeral v = true) vols), err.
        repeat split; reflexivity.
      * specialize (IH w1). unfold result, trace in IH.
        destruct IH as [[Hres Htr]|(done & v & rest & err & Heq & Htr & Hres)].
        -- left. split; [exact Hres|]. rewrite Htr. reflexivity.
        -- right. exists (vol :: done), v, rest, err.
           split; [rewrite Heq; reflexivity|].
           split; [|exact Hres]. rewrite Htr. reflexivity.
    + rewrite filter_cons_False by (unfold isEphemeral; rewrite Hdir; done).
      apply IH.
Qed.

(** The shapes of a run of [Destroy]. *)
Lemma Destroy_shape e w :
  exists containers,
    calls containers = flat_map teardownCalls (Steps (spec e))
    /\ ((trace (Destroy e w)
         = containers
           ++ map (fun vol => succeeded (volumeRemoveCall vol))
                  (ephemeralVolumes (spec e))
           ++ [mkEvent (networkRemoveCall (spec e))
                       (AnswerError (result (Destroy e w)))])
        \/ (exists done vol rest err,
              ephemeralVolumes (spec e) = done ++ vol :: rest
              /\ trace (Destroy e w)
                 = containers
                   ++ map (fun vol => succeeded (volumeRemoveCall vol)) done
                   ++ [failed (volumeRemoveCall vol) err]
              /\ result (Destroy e w) = Some err)).
Proof.
  exists (trace (Destroy_containers e (Steps (spec e)) w)).
  split; [apply Destroy_containers_calls|].
  unfold Destroy, ephemeralVolumes, declaredVolumes.
  rewrite bind_unfold. unfold result, world, trace. simpl.
  set (w1 := (Destroy_containers e (Steps (spec e)) w).1.2).
  destruct (Spec_Docker (spec e)) as [d|].
  - destruct (Destroy_volumes_trace e (Volumes d) w1)
      as [[Hres Htr]|(done & v & rest & err & Heq & Htr & Hres)];
      unfold result, trace in Hres, Htr.
    + left. rewrite bind_unfold. unfold result, world, trace.
      rewrite Hres, Htr. unfold clientNetworkRemove. rewrite invoke_unfold.
      reflexivity.
    + right. exists done, v, rest, err. split; [exact Heq|].
      rewrite bind_unfold. unfold result, world, trace.
      rewrite Hres, Htr. simpl. rewrite app_nil_r. split; reflexivity.
  - left. rewrite filter_nil. unfold clientNetworkRemove. run_simpl.
    reflexivity.
Qed.

(** C3, as amended. [Destroy] kills and removes the container of every
    step, whatever these calls answer. It then removes the ephemeral volumes
    in order; the first removal that fails ends the run with its error, and
    nothing is called after it. When no removal of a volume fails, the
    network is removed and the answer of that call is the result. *)
Theorem Destroy_cleanup_errors e w :
  exists containers,
    calls containers = flat_map teardownCalls (Steps (spec e))
    /\ ((trace (Destroy e w)
         = containers
           ++ map (fun vol => succeeded (volumeRemoveCall vol))
                  (ephemeralVolumes (spec e))
           ++ [mkEvent (networkRemoveCall (spec e))
                       (AnswerError (result (Destroy e w)))])
        \/ (exists done vol rest err,
              ephemeralVolumes (spec e) = done ++ vol :: rest
              /\ trace (Destroy e w)
                 = containers
                   ++ map (fun vol => succeeded (volumeRemoveCall vol)) done
                   ++ [failed (volumeRemoveCall vol) err]
              /\ result (Destroy e w) = Some err)).
Proof. apply Destroy_shape. Qed.

End DestroyFacts.

(** ** Destroy, twice *)

Section Idempotence.

Context `{Collaborators} {W : Type}.
Variables (e : dockerEngine W) (volumeExists networkExists : W -> string -> Prop).
Hypothesis contract : RemovalContract (client e) volumeExists networkExists.

Implicit Types (w : W).

Lemma absent_volume_preserved w w' volumeID :
  rtc (teardown (client e)) w w' ->
  ~ volumeExists w volumeID -> ~ volumeExists w' volumeID.
Proof.
  induction 1 as [|w1 w2 w3 Hstep _ IH]; [trivial|].
  intros Habsent. apply IH.
  exact (absent_volume_stable _ _ _ contract _ _ _ Hstep Habsent).
Qed.

Lemma absent_network_preserved w w' networkID :
  rtc (teardown (client e)) w w' ->
  ~ networkExists w networkID -> ~ networkExists w' networkID.
Proof.
  induction 1 as [|w1 w2 w3 Hstep _ IH]; [trivial|].
  intros Habsent. apply IH.
  exact (absent_network_stable _ _ _ contract _ _ _ Hstep Habsent).
Qed.

Lemma Destroy_containers_teardown steps w :
  rtc (teardown (client e)) w (world (Destroy_containers e steps w)).
Proof.
  revert w. induction steps as [|step steps IH]; intros w; [constructor|].
  simpl. unfold clientContainerKill, clientContainerRemove. run_simpl.
  eapply rtc_l; [apply teardownKill|].
  eapply rtc_l; [apply teardownRemove|].
  apply IH.
Qed.

Lemma Destroy_volumes_teardown vols w :
  rtc (teardown (client e)) w (world (Destroy_volumes e vols w)).
Proof.
  revert w. induction vols as [|vol vols IH]; intros w; [constructor|].
  simpl. destruct (EmptyDir vol); [|apply IH].
  unfold clientVolumeRemove. run_simpl.
  eapply rtc_l; [apply (teardownVolume _ (UID (Volume_Metadata vol)) true)|].
  destruct (docker.VolumeRemove (client e) _ _ w) as [[err|] w1]; simpl.
  - constructor.
  - apply IH.
Qed.

(** After a run of the loop without error, no ephemeral volume of the list
    exists. *)
Lemma Destroy_volumes_removed vols w vol :
  result (Destroy_volumes e vols w) = None ->
  vol ∈ vols -> isEphemeral vol = true ->
  ~ volumeExists (world (Destroy_volumes e vols w)) (UID (Volume_Metadata vol)).
Proof.
  revert w. induction vols as [|v vols IH]; intros w Hres Hin Heph.
  - inversion Hin.
  - simpl in Hres |- *. unfold isEphemeral in Heph.
    destruct (EmptyDir v) as [dir|] eqn:Hdir.
    + unfold clientVolumeRemove in Hres |- *. revert Hres. run_simpl.
      pose proof (removed_volume_absent _ _ _ contract w
                    (UID (Volume_Metadata v)) true) as Hgone.
      destruct (docker.VolumeRemove (client e) _ _ w) as [[err|] w1];
        simpl in Hgone |- *; [discriminate|].
      intros Hres. apply elem_of_cons in Hin. destruct Hin as [->|Hin].
      * eapply absent_volume_preserved; [apply Destroy_volumes_teardown|].
        apply Hgone. reflexivity.
      * apply IH; assumption.
    + apply elem_of_cons in Hin. destruct Hin as [->|Hin].
      * rewrite Hdir in Heph. discriminate.
      * apply IH; assumption.
Qed.

(** When no ephemeral volume of the list exists, the loop returns no
    error. *)
Lemma Destroy_volumes_absent vols w :
  (forall vol, vol ∈ vols -> isEphemeral vol = true ->
     ~ volumeExists w (UID (Volume_Metadata vol))) ->
  result (Destroy_volumes e vols w) = None.
Proof.
  revert w. induction vols as [|v vols IH]; intros w Habsent; [reflexivity|].
  simpl. destruct (EmptyDir v) as [dir|] eqn:Hdir.
  - unfold clientVolumeRemove. run_simpl.
    pose proof (absent_volume_removed _ _ _ contract w
                  (UID (Volume_Metadata v)) true) as Hok.
    pose proof (teardownVolume (client e) (UID (Volume_Metadata v)) true w)
      as Hstep.
    destruct (docker.VolumeRemove (client e) _ _ w) as [a w1];
      simpl in Hok, Hstep |- *.
    rewrite Hok.
    + apply IH. intros vol Hin Heph.
      eapply absent_volume_stable; [exact contract|exact Hstep|].
      apply Habsent; [right; exact Hin|exact Heph].
    + apply Habsent; [left|]. unfold isEphemeral. rewrite Hdir. reflexivity.
  - apply IH. intros vol Hin Heph. apply Habsent; [right; exact Hin|exact Heph].
Qed.

(** The state and the result of [Destroy], from its three parts. *)
Lemma Destroy_parts w :
  let w1 := world (Destroy_containers e (Steps (spec e)) w) in
  let volumes := Destroy_volumes e (declaredVolumes (spec e)) w1 in
  let network :=
    docker.NetworkRemove (client e) (UID (Spec_Metadata (spec e)))
      (world volumes) in
  result (Destroy e w)
  = match result volumes with Some err => Some err | None => network.1 end
  /\ world (Destroy e w)
     = match result volumes with Some _ => world volumes | None => network.2 end.
Proof.
  unfold Destroy, declaredVolumes. rewrite bind_unfold.
  unfold result, world, trace. simpl.
  set (w1 := (Destroy_containers e (Steps (spec e)) w).1.2).
  destruct (Spec_Docker (spec e)) as [d|].
  - rewrite bind_unfold. unfold result, world, trace.
    destruct (Destroy_volumes e (Volumes d) w1) as [[[err|] w2] t2]; simpl.
    + split; reflexivity.
    + unfold clientNetworkRemove. rewrite invoke_unfold. split; reflexivity.
  - simpl. unfold clientNetworkRemove. run_simpl. split; reflexivity.
Qed.

(** C9. For a client that keeps the contract of removal, a call of
    [Destroy] right after a call of [Destroy] that returned no error returns
    no error either. *)
Theorem Destroy_idempotent w :
  result (Destroy e w) = None ->
  result (Destroy e (world (Destroy e w))) = None.
Proof.
  intros Hfirst.
  destruct (Destroy_parts w) as [Hres Hworld]. cbv zeta in Hres, Hworld.
  set (w1 := world (Destroy_containers e (Steps (spec e)) w)) in *.
  set (volumes := Destroy_volumes e (declaredVolumes (spec e)) w1) in *.
  rewrite Hfirst in Hres.
  destruct (result volumes) as [err|] eqn:Hvolumes; [discriminate|].
  set (w3 := world (Destroy e w)) in *.
  assert (Hvols : forall vol, vol ∈ declaredVolumes (spec e) ->
            isEphemeral vol = true ->
            ~ volumeExists w3 (UID (Volume_Metadata vol))).
  { intros vol Hin Heph. rewrite Hworld.
    eapply absent_volume_stable; [exact contract|apply teardownNetwork|].
    apply Destroy_volumes_removed; assumption. }
  assert (Hnet : ~ networkExists w3 (UID (Spec_Metadata (spec e)))).
  { rewrite Hworld. apply (removed_network_absent _ _ _ contract).
    symmetry. exact Hres. }
  destruct (Destroy_parts w3) as [Hres' _]. cbv zeta in Hres'.
  set (w4 := world (Destroy_containers e (Steps (spec e)) w3)) in *.
  assert (Hreach : rtc (teardown (client e)) w3 w4)
    by apply Destroy_containers_teardown.
  rewrite Hres'. rewrite Destroy_volumes_absent.
  - apply (absent_network_removed _ _ _ contract).
    eapply absent_network_preserved; [|exact Hnet].
    etrans; [exact Hreach|]. apply Destroy_volumes_teardown.
  - intros vol Hin Heph. eapply absent_volume_preserved; [exact Hreach|].
    apply Hvols; assumption.
Qed.

End Idempotence.

(** ** Wait *)

Section WaitFacts.

Context `{Collaborators} {W : Type}.
Implicit Types (e : dockerEngine W) (w : W) (step : Step).

(** C10. [Wait] calls [ContainerWait] and then [ContainerInspect]. Its
    result depends on the answer of the inspection alone: the error of the
    inspection, or else the state with [Exited] set and the inspected exit
    code and OOM flag, whatever message the wait delivered, be it an error,
    and whether or not the inspection says that the container is running.
    So [Wait] returns an error exactly when the inspection does. *)
Theorem Wait_reports_inspection e step w :
  let uid := UID (Step_Metadata step) in
  let waited := docker.ContainerWait (client e) uid EmptyString w in
  let inspected := docker.ContainerInspect (client e) uid waited.2 in
  trace (Wait e step w)
  = [mkEvent (CallContainerWait uid EmptyString) (AnswerWait waited.1);
     mkEvent (CallContainerInspect uid) (AnswerInspect inspected.1)]
  /\ result (Wait e step w)
     = match inspected.1 with
       | inl err => (None, Some err)
       | inr info =>
           (Some {| Exited := true;
                    ExitCode := ContainerExitCode (ContainerJSON_State info);
                    OOMKilled := ContainerOOMKilled (ContainerJSON_State info) |},
            None)
       end
  /\ ((result (Wait e step w)).2 <> None <-> exists err, inspected.1 = inl err)
  /\ (forall err, (result (Wait e step w)).2 = Some err ->
        inspected.1 = inl err)
  /\ ((result (Wait e step w)).2 = None ->
        exists state,
          (result (Wait e step w)).1 = Some state /\ Exited state = true).
Proof.
  cbv zeta. unfold Wait, clientContainerWait, clientContainerInspect.
  run_simpl.
  destruct (docker.ContainerWait (client e) _ _ w) as [msg w1]; simpl.
  destruct (docker.ContainerInspect (client e) _ w1) as [[err|info] w2]; simpl.
  - split; [reflexivity|]. split; [reflexivity|]. split; [|split].
    + split; [intros _; exists err; reflexivity|discriminate].
    + intros err' [= <-]. reflexivity.
    + discriminate.
  - split; [reflexivity|]. split; [reflexivity|]. split; [|split].
    + split; [intros Hne; contradiction|intros [err Herr]; discriminate].
    + discriminate.
    + intros _. eexists. split; reflexivity.
Qed.

End WaitFacts.

(** ** Volumes *)

Section VolumeFacts.

Context `{Collaborators} {W : Type}.
Implicit Types (e : dockerEngine W) (w : W) (step : Step) (s : Spec).

Lemma ephemeralVolumes_declared s vol :
  vol ∈ ephemeralVolumes s <->
  vol ∈ declaredVolumes s /\ isEphemeral vol = true.
Proof.
  unfold ephemeralVolumes. rewrite list_elem_of_filter. tauto.
Qed.

Lemma targetsEphemeral_none s c :
  volume_target c = None -> targetsEphemeral s c.
Proof. intros Hnone id Hid. congruence. Qed.

Lemma targetsEphemeral_create s vol :
  vol ∈ ephemeralVolumes s -> targetsEphemeral s (volumeCreateCall s vol).
Proof.
  intros Hin id [= <-]. apply ephemeralVolumes_declared in Hin.
  exists vol. tauto.
Qed.

Lemma targetsEphemeral_remove s vol :
  vol ∈ ephemeralVolumes s -> targetsEphemeral s (volumeRemoveCall vol).
Proof.
  intros Hin id [= <-]. apply ephemeralVolumes_declared in Hin.
  exists vol. tauto.
Qed.

Lemma Forall_volume_events (f : Volume -> Call) s vols :
  (forall vol, vol ∈ vols -> targetsEphemeral s (f vol)) ->
  Forall (fun ev => targetsEphemeral s (call ev))
         (map (fun vol => succeeded (f vol)) vols).
Proof.
  intros Hall. apply Forall_forall. intros ev Hin.
  apply (list_elem_of_fmap (fun vol => succeeded (f vol))) in Hin.
  destruct Hin as (vol & -> & Hvol). apply Hall, Hvol.
Qed.

Lemma Forall_teardownCalls s steps t :
  calls t = flat_map teardownCalls steps ->
  Forall (fun ev => targetsEphemeral s (call ev)) t.
Proof.
  revert t. induction steps as [|step steps IH]; intros t Ht.
  - destruct t; [constructor|discriminate].
  - destruct t as [|ev1 [|ev2 t]]; try discriminate. simpl in Ht.
    injection Ht as H1 H2 Ht.
    constructor; [apply targetsEphemeral_none; rewrite H1; reflexivity|].
    constructor; [apply targetsEphemeral_none; rewrite H2; reflexivity|].
    apply IH, Ht.
Qed.

Lemma FilesRun_no_volume step found t r :
  FilesRun step found t r ->
  Forall (fun ev => volume_target (call ev) = None) t.
Proof. induction 1; repeat constructor; assumption. Qed.

Lemma CreateRun_no_volume s step d domain latest t r :
  CreateRun s step d domain latest t r ->
  Forall (fun ev => volume_target (call ev) = None) t.
Proof.
  assert (Hfinish : forall a t r, FinishRun s step a t r ->
            Forall (fun ev => volume_target (call ev) = None) t).
  { intros a t0 r0 [err|t0' r0' Hfiles]; [constructor|].
    eapply FilesRun_no_volume; eassumption. }
  assert (Hcreation : forall t r, CreationRun s step d domain t r ->
            Forall (fun ev => volume_target (call ev) = None) t).
  { intros t0 r0 [a t1 r1 _ Hfin|a perr _|a a' t1 r1 _ Hfin];
      repeat constructor; eapply Hfinish; eassumption. }
  intros [perr _|t0 r0 _ Hc|t0 r0 _ Hc]; repeat constructor;
    eapply Hcreation; eassumption.
Qed.

Lemma Create_no_volume e step w :
  Forall (fun ev => volume_target (call ev) = None) (trace (Create e step w)).
Proof.
  destruct (Step_Docker step) as [d|] eqn:Hd.
  2:{ unfold Create. rewrite Hd. constructor. }
  destruct (parseImage (Image d)) as [perr|[[canonical domain] latest]] eqn:Hparse.
  { unfold Create. rewrite Hd, Hparse. constructor. }
  eapply CreateRun_no_volume. eapply Create_run; eassumption.
Qed.

(** The operations other than [Setup] and [Destroy] make no call on a
    volume. *)
Lemma step_operations_no_volume e op w :
  match op with
  | OpSetup | OpDestroy => True
  | _ => Forall (fun ev => volume_target (call ev) = None)
                (operationTrace e op w)
  end.
Proof.
  destruct op as [|step|step|step|step|]; simpl; try exact I.
  - apply Create_no_volume.
  - unfold Start, clientContainerStart. run_simpl. repeat constructor.
  - unfold Wait, clientContainerWait, clientContainerInspect. run_simpl.
    destruct (docker.ContainerInspect _ _ _).1; repeat constructor.
  - unfold Tail, clientContainerLogs. run_simpl.
    destruct (docker.ContainerLogs _ _ _ _).1; repeat constructor.
Qed.

Lemma operations_target_ephemeral e op w :
  Forall (fun ev => targetsEphemeral (spec e) (call ev)) (operationTrace e op w).
Proof.
  pose proof (step_operations_no_volume e op w) as Hstep.
  destruct op as [|step|step|step|step|];
    try (eapply Forall_impl; [exact Hstep|];
         intros ev Hev; apply targetsEphemeral_none, Hev).
  - simpl.
    destruct (Setup_shape e w) as [->|(done & vol & rest & err & Heq & -> & _)];
      apply Forall_app; split.
    + apply Forall_volume_events. intros vol Hvol.
      apply targetsEphemeral_create, Hvol.
    + repeat constructor. apply targetsEphemeral_none. reflexivity.
    + apply Forall_volume_events. intros v Hv.
      apply targetsEphemeral_create. rewrite Heq. apply elem_of_app. tauto.
    + repeat constructor. apply targetsEphemeral_create. rewrite Heq.
      apply elem_of_app. right. left.
  - simpl. destruct (Destroy_shape e w) as (containers & Hcalls & Hshape).
    destruct Hshape as [->|(done & vol & rest & err & Heq & -> & _)];
      (apply Forall_app; split;
       [eapply Forall_teardownCalls; exact Hcalls|apply Forall_app; split]).
    + apply Forall_volume_events. intros vol Hvol.
      apply targetsEphemeral_remove, Hvol.
    + repeat constructor. apply targetsEphemeral_none. reflexivity.
    + apply Forall_volume_events. intros v Hv.
      apply targetsEphemeral_remove. rewrite Heq. apply elem_of_app. tauto.
    + repeat constructor. apply targetsEphemeral_remove. rewrite Heq.
      apply elem_of_app. right. left.
Qed.

Lemma volume_calls_app t1 t2 :
  volume_calls (t1 ++ t2) = volume_calls t1 ++ volume_calls t2.
Proof. unfold volume_calls, calls. rewrite map_app. apply filter_app. Qed.

Lemma volume_calls_none t :
  Forall (fun ev => volume_target (call ev) = None) t -> volume_calls t = [].
Proof.
  unfold volume_calls, calls. induction 1 as [|ev t Hev _ IH]; [reflexivity|].
  simpl. rewrite filter_cons_False; [exact IH|].
  unfold on_volume. rewrite Hev. discriminate.
Qed.

Lemma volume_calls_all (f : Volume -> Call) vols :
  (forall vol, on_volume (f vol) = true) ->
  volume_calls (map (fun vol => succeeded (f vol)) vols) = map f vols.
Proof.
  intros Hf. unfold volume_calls, calls.
  induction vols as [|vol vols IH]; [reflexivity|].
  simpl. rewrite filter_cons_True by apply Hf. rewrite IH. reflexivity.
Qed.

Lemma teardown_no_volume steps t :
  calls t = flat_map teardownCalls steps ->
  Forall (fun ev => volume_target (call ev) = None) t.
Proof.
  revert t. induction steps as [|step steps IH]; intros t Ht.
  - destruct t; [constructor|discriminate].
  - destruct t as [|ev1 [|ev2 t]]; try discriminate. simpl in Ht.
    injection Ht as H1 H2 Ht.
    constructor; [rewrite H1; reflexivity|].
    constructor; [rewrite H2; reflexivity|]. apply IH, Ht.
Qed.

Lemma take_snoc {A} (l : list A) x rest :
  take (S (length l)) (l ++ x :: rest) = l ++ [x].
Proof.
  induction l as [|y l IH]; simpl; [rewrite take_0; reflexivity|].
  rewrite IH. reflexivity.
Qed.

(** The volume calls of a run that handles the volumes [vols] in order,
    each with the call [f], up to the first failure. *)
Lemma volume_calls_prefix (f : Volume -> Call) vols head t last :
  (forall vol, on_volume (f vol) = true) ->
  Forall (fun ev => volume_target (call ev) = None) head ->
  Forall (fun ev => volume_target (call ev) = None) last ->
  (t = head ++ map (fun vol => succeeded (f vol)) vols ++ last
   \/ exists done vol rest err,
        vols = done ++ vol :: rest
        /\ t = head ++ map (fun vol => succeeded (f vol)) done
               ++ [failed (f vol) err]) ->
  exists n, volume_calls t = take n (map f vols).
Proof.
  intros Hf Hhead Hlast [->|(done & vol & rest & err & -> & ->)].
  - exists (length vols). rewrite !volume_calls_app.
    rewrite (volume_calls_none head Hhead), (volume_calls_none last Hlast).
    rewrite (volume_calls_all f vols Hf), app_nil_r. simpl.
    rewrite firstn_all2; [reflexivity|]. rewrite length_map. lia.
  - exists (S (length done)). rewrite !volume_calls_app.
    rewrite (volume_calls_none head Hhead), (volume_calls_all f done Hf).
    simpl. unfold volume_calls at 1. simpl.
    rewrite filter_cons_True by apply Hf. rewrite filter_nil.
    rewrite map_app. simpl. rewrite <- (length_map f done).
    symmetry. apply take_snoc.
Qed.

(** The volume calls of each operation: [Setup] and [Destroy] go through
    the ephemeral volumes in order; the other operations make none. *)
Lemma operations_volume_calls e op w :
  match op with
  | OpSetup =>
      exists n, volume_calls (operationTrace e op w)
                = take n (map (volumeCreateCall (spec e))
                              (ephemeralVolumes (spec e)))
  | OpDestroy =>
      exists n, volume_calls (operationTrace e op w)
                = take n (map volumeRemoveCall (ephemeralVolumes (spec e)))
  | _ => volume_calls (operationTrace e op w) = []
  end.
Proof.
  pose proof (step_operations_no_volume e op w) as Hstep.
  destruct op as [|step|step|step|step|];
    try (apply volume_calls_none; exact Hstep).
  - simpl.
    apply (volume_calls_prefix (volumeCreateCall (spec e)) _ []
             _ [mkEvent (networkCreateCall (spec e))
                        (AnswerError (result (Setup e w)))]);
      [reflexivity|constructor|repeat constructor|].
    destruct (Setup_shape e w) as [Ht|(done & vol & rest & err & Heq & Ht & _)].
    + left. exact Ht.
    + right. exists done, vol, rest, err. split; assumption.
  - simpl. destruct (Destroy_shape e w) as (containers & Hcalls & Hshape).
    apply (volume_calls_prefix volumeRemoveCall _ containers
             _ [mkEvent (networkRemoveCall (spec e))
                        (AnswerError (result (Destroy e w)))]);
      [reflexivity|eapply teardown_no_volume; exact Hcalls
      |repeat constructor|].
    destruct Hshape as [Ht|(done & vol & rest & err & Heq & Ht & _)].
    + left. exact Ht.
    + right. exists done, vol, rest, err. split; assumption.
Qed.

(** C8. [Setup] creates, and [Destroy] removes, ephemeral volumes only:
    their volume calls go through the declared volumes with [EmptyDir], in
    order, and [Create], [Start], [Wait] and [Tail] make no volume call. So,
    whatever the operation, a call that creates or removes a volume names a
    declared volume that has [EmptyDir]; a declared volume without
    [EmptyDir], whose identifier no ephemeral volume shares, is never named
    by such a call. *)
Theorem volumes_only_ephemeral e op w :
  match op with
  | OpSetup =>
      exists n, volume_calls (operationTrace e op w)
                = take n (map (volumeCreateCall (spec e))
                              (ephemeralVolumes (spec e)))
  | OpDestroy =>
      exists n, volume_calls (operationTrace e op w)
                = take n (map volumeRemoveCall (ephemeralVolumes (spec e)))
  | _ => volume_calls (operationTrace e op w) = []
  end
  /\ Forall (fun ev => targetsEphemeral (spec e) (call ev))
            (operationTrace e op w)
  /\ (forall vol,
        vol ∈ declaredVolumes (spec e) ->
        isEphemeral vol = false ->
        (forall vol', vol' ∈ declaredVolumes (spec e) ->
           isEphemeral vol' = true ->
           UID (Volume_Metadata vol') <> UID (Volume_Metadata vol)) ->
        Forall (fun ev =>
                  volume_target (call ev) <> Some (UID (Volume_Metadata vol)))
               (operationTrace e op w)).
Proof.
  split; [apply operations_volume_calls|].
  split; [apply operations_target_ephemeral|].
  intros vol Hvol Hhost Hunique.
  eapply Forall_impl; [apply operations_target_ephemeral|].
  intros ev Htarget Hnamed.
  destruct (Htarget _ Hnamed) as (vol' & Hin & Heph & Huid).
  exact (Hunique vol' Hin Heph Huid).
Qed.

End VolumeFacts.

(** ** Create, call by call *)

Section CreateCalls.

Context `{Collaborators} {W : Type}.
Implicit Types (e : dockerEngine W) (w : W) (step : Step) (s : Spec).

Lemma passed_succeeded c : passed (succeeded c).
Proof. left. reflexivity. Qed.

Lemma passed_recovered s step d a :
  recovers d a = true ->
  passed (mkEvent (containerCreateCall s step) (AnswerError a)).
Proof.
  intros Hrec. apply recovers_true in Hrec. destruct Hrec as [Hnf _].
  right. split; [reflexivity|]. exists a. split; [reflexivity|exact Hnf].
Qed.

(** After calls that passed, the loop over the mounts ends with the call
    whose answer is the result. *)
Lemma FilesRun_stop step found t r head c :
  FilesRun step found t r ->
  Forall passed head ->
  exists init ev,
    (head ++ [succeeded c]) ++ t = init ++ [ev]
    /\ answer ev = AnswerError r
    /\ Forall passed init.
Proof.
  intros Hrun. revert head c.
  induction Hrun as [|f rest t r _ IH|f rest err]; intros head c Hhead.
  - exists head, (succeeded c). rewrite app_nil_r.
    split; [reflexivity|]. split; [reflexivity|exact Hhead].
  - destruct (IH (head ++ [succeeded c]) (copyCall step f)) as (init & ev & Heq & Hans & Hinit).
    { apply Forall_app. split; [exact Hhead|].
      constructor; [apply passed_succeeded|constructor]. }
    exists init, ev. split; [|split; assumption].
    rewrite <- Heq. rewrite <- !app_assoc. reflexivity.
  - exists (head ++ [succeeded c]), (failed (copyCall step f) err).
    split; [reflexivity|]. split; [reflexivity|].
    apply Forall_app. split; [exact Hhead|].
    constructor; [apply passed_succeeded|constructor].
Qed.

Lemma FinishRun_stop s step a t r head c :
  FinishRun s step a t r ->
  Forall passed head ->
  exists init ev,
    (head ++ [mkEvent c (AnswerError a)]) ++ t = init ++ [ev]
    /\ answer ev = AnswerError r
    /\ Forall passed init.
Proof.
  intros [err|t0 r0 Hfiles] Hhead.
  - exists head, (mkEvent c (AnswerError (Some err))). rewrite app_nil_r.
    split; [reflexivity|]. split; [reflexivity|exact Hhead].
  - exact (FilesRun_stop _ _ _ _ head c Hfiles Hhead).
Qed.

Lemma CreationRun_stop s step d domain t r head :
  CreationRun s step d domain t r ->
  Forall passed head ->
  exists init ev,
    head ++ t = init ++ [ev]
    /\ answer ev = AnswerError r
    /\ Forall passed init.
Proof.
  intros [a t0 r0 Hrec Hfin|a perr Hrec|a a' t0 r0 Hrec Hfin] Hhead.
  - destruct (FinishRun_stop _ _ _ _ _ head (containerCreateCall s step)
                Hfin Hhead) as (init & ev & Heq & Hans & Hinit).
    exists init, ev. split; [|split; assumption].
    rewrite <- Heq, <- app_assoc. reflexivity.
  - exists (head ++ [mkEvent (containerCreateCall s step) (AnswerError a)]),
      (failed (pullCall s d domain) perr).
    split; [rewrite <- app_assoc; reflexivity|]. split; [reflexivity|].
    apply Forall_app. split; [exact Hhead|].
    constructor; [eapply passed_recovered; exact Hrec|constructor].
  - destruct (FinishRun_stop _ _ _ _ _
                (head ++ [mkEvent (containerCreateCall s step) (AnswerError a);
                          succeeded (pullCall s d domain)])
                (containerCreateCall s step) Hfin)
      as (init & ev & Heq & Hans & Hinit).
    { apply Forall_app. split; [exact Hhead|].
      constructor; [eapply passed_recovered; exact Hrec|].
      constructor; [apply passed_succeeded|constructor]. }
    exists init, ev. split; [|split; assumption].
    rewrite <- Heq, <- !app_assoc. reflexivity.
Qed.

(** A run of [Create] that resolved the image ends with the call whose
    answer is the result, after calls that passed. *)
Lemma CreateRun_stop s step d domain latest t r :
  CreateRun s step d domain latest t r ->
  exists init ev,
    t = init ++ [ev] /\ answer ev = AnswerError r /\ Forall passed init.
Proof.
  intros [perr _|t0 r0 _ Hc|t0 r0 _ Hc].
  - exists [], (failed (pullCall s d domain) perr).
    split; [reflexivity|]. split; [reflexivity|constructor].
  - apply (CreationRun_stop _ _ _ _ _ _ [succeeded (pullCall s d domain)] Hc).
    constructor; [apply passed_succeeded|constructor].
  - apply (CreationRun_stop _ _ _ _ _ _ [] Hc). constructor.
Qed.

(** The three outcomes of the checks of [Create] before its first call. *)
Lemma Create_cases e step w :
  (Step_Docker step = None
   /\ Create e step w
      = (Some (errors.New "engine: missing docker configuration"), w, []))
  \/ (exists d err,
        Step_Docker step = Some d
        /\ parseImage (Image d) = inl err
        /\ Create e step w = (Some err, w, []))
  \/ (exists d canonical domain latest,
        Step_Docker step = Some d
        /\ parseImage (Image d) = inr (canonical, domain, latest)
        /\ CreateRun (spec e) step d domain latest
             (trace (Create e step w)) (result (Create e step w))).
Proof.
  destruct (Step_Docker step) as [d|] eqn:Hd.
  - destruct (parseImage (Image d)) as [err|[[canonical domain] latest]]
      eqn:Hparse.
    + right. left. exists d, err. split; [reflexivity|].
      split; [exact Hparse|]. unfold Create. rewrite Hd, Hparse. reflexivity.
    + right. right. exists d, canonical, domain, latest.
      split; [reflexivity|]. split; [exact Hparse|].
      eapply Create_run; eassumption.
  - left. split; [reflexivity|]. unfold Create. rewrite Hd. reflexivity.
Qed.

(** X1. [Create] makes no call exactly when the step has no Docker
    configuration or its image reference does not resolve; it then leaves
    the daemon as it is and returns the error of the missing configuration,
    or the error of the resolver unchanged. *)
Theorem Create_no_call_iff_rejected e step w :
  (trace (Create e step w) = []
   <-> Step_Docker step = None
       \/ exists d err,
            Step_Docker step = Some d /\ parseImage (Image d) = inl err)
  /\ (Step_Docker step = None ->
        Create e step w
        = (Some (errors.New "engine: missing docker configuration"), w, []))
  /\ (forall d err,
        Step_Docker step = Some d -> parseImage (Image d) = inl err ->
        Create e step w = (Some err, w, [])).
Proof.
  destruct (Create_cases e step w)
    as [[Hd Hc]|[(d & err & Hd & Hparse & Hc)
                |(d & canonical & domain & latest & Hd & Hparse & Hrun)]].
  - rewrite Hc. split; [|split].
    + split; [intros _; left; exact Hd|reflexivity].
    + reflexivity.
    + intros d err Hd'. congruence.
  - rewrite Hc. split; [|split].
    + split; [intros _; right; exists d, err; split; assumption|reflexivity].
    + congruence.
    + intros d' err' Hd' Hparse'. congruence.
  - split; [|split].
    + split.
      * intros Hnil. apply CreateRun_stop in Hrun.
        destruct Hrun as (init & ev & Ht & _). rewrite Hnil in Ht.
        destruct init; discriminate.
      * intros [Hnone|(d' & err & Hd' & Hparse')]; congruence.
    + congruence.
    + intros d' err' Hd' Hparse'. congruence.
Qed.

(** X2. [Create] stops at the first call that fails, but for a container
    creation that fails because the image is absent locally: when [Create]
    calls the daemon, its result, nil included, is the answer of its last
    call, and every call before the last passed. *)
Theorem Create_stops_at_first_failure e step w :
  trace (Create e step w) = []
  \/ exists init ev,
       trace (Create e step w) = init ++ [ev]
       /\ answer ev = AnswerError (result (Create e step w))
       /\ Forall passed init.
Proof.
  destruct (Create_cases e step w)
    as [[Hd Hc]|[(d & err & Hd & Hparse & Hc)
                |(d & canonical & domain & latest & Hd & Hparse & Hrun)]].
  - left. rewrite Hc. reflexivity.
  - left. rewrite Hc. reflexivity.
  - right. eapply CreateRun_stop, Hrun.
Qed.

Lemma attempts_cons c a t :
  is_pull c || is_create c = true ->
  attempts (mkEvent c a :: t) = c :: attempts t.
Proof. intros Hc. unfold attempts. simpl. rewrite filter_cons_True; done. Qed.

Lemma attempts_none t : Forall no_attempt t -> attempts t = [].
Proof.
  unfold attempts, calls. induction 1 as [|ev t [Hp Hc] _ IH]; [reflexivity|].
  simpl. rewrite filter_cons_False; [exact IH|].
  rewrite Hp, Hc. discriminate.
Qed.

Lemma CreateRun_attempts s step d domain latest t r :
  CreateRun s step d domain latest t r ->
  exists n,
    attempts t
    = (if pullsFirstb d latest then [pullCall s d domain] else [])
      ++ take n [containerCreateCall s step; pullCall s d domain;
                 containerCreateCall s step].
Proof.
  assert (Hcreation : forall t r, CreationRun s step d domain t r ->
    exists n, attempts t
              = take n [containerCreateCall s step; pullCall s d domain;
                        containerCreateCall s step]).
  { intros t0 r0 [a t1 r1 _ Hfin|a perr _|a a' t1 r1 _ Hfin].
    - exists 1%nat. rewrite attempts_cons by reflexivity.
      rewrite (attempts_none t1); [reflexivity|].
      eapply FinishRun_no_attempt, Hfin.
    - exists 2%nat. unfold failed. rewrite !attempts_cons by reflexivity.
      reflexivity.
    - exists 3%nat. unfold succeeded. rewrite !attempts_cons by reflexivity.
      rewrite (attempts_none t1); [reflexivity|].
      eapply FinishRun_no_attempt, Hfin. }
  intros [perr Hp|t0 r0 Hp Hc|t0 r0 Hp Hc]; rewrite Hp.
  - exists 0%nat. reflexivity.
  - destruct (Hcreation _ _ Hc) as [n Hn]. exists n.
    unfold succeeded. rewrite attempts_cons by reflexivity. rewrite Hn.
    reflexivity.
  - destruct (Hcreation _ _ Hc) as [n Hn]. exists n. rewrite Hn. reflexivity.
Qed.

(** X3. The pulls and the container creations of [Create], in order, are
    the pull before the creation, when the policy asks for it, and then a
    prefix of: creation, pull, creation. So [Create] pulls at most twice
    and creates at most twice, a second creation comes after a pull, and
    all pulls have the same arguments, the image string of the step and
    the options for the resolved domain, as have all creations. *)
Theorem Create_attempts_bounded e step w d canonical domain latest :
  Step_Docker step = Some d ->
  parseImage (Image d) = inr (canonical, domain, latest) ->
  exists n,
    attempts (trace (Create e step w))
    = (if pullsFirstb d latest then [pullCall (spec e) d domain] else [])
      ++ take n [containerCreateCall (spec e) step;
                 pullCall (spec e) d domain;
                 containerCreateCall (spec e) step].
Proof.
  intros Hd Hparse. eapply CreateRun_attempts, Create_run; eassumption.
Qed.

(** X4. Under [PullNever], [Create] never pulls, neither before the
    creation nor to recover, and creates the container at most once. *)
Theorem Create_never_pulls_under_PullNever e step w d :
  Step_Docker step = Some d ->
  Step_PullPolicy d = PullNever ->
  Forall (fun ev => is_pull (call ev) = false) (trace (Create e step w))
  /\ (length (attempts (trace (Create e step w))) <= 1)%nat.
Proof.
  intros Hd Hnever.
  destruct (Create_cases e step w)
    as [[Hd' Hc]|[(d' & err & Hd' & Hparse & Hc)
                 |(d' & canonical & domain & latest & Hd' & Hparse & Hrun)]].
  - congruence.
  - rewrite Hc. split; [constructor|simpl; lia].
  - assert (d' = d) by congruence. subst d'.
    destruct Hrun as [perr Hp|t r Hp Hc|t r Hp Hc];
      try (unfold pullsFirstb in Hp; rewrite Hnever in Hp; discriminate).
    destruct Hc as [a t0 r0 Hrec Hfin|a perr Hrec|a a' t0 r0 Hrec Hfin];
      try (unfold recovers in Hrec; rewrite Hnever, andb_false_r in Hrec;
           discriminate).
    pose proof (FinishRun_no_attempt _ _ _ _ _ Hfin) as Hno. split.
    + constructor; [reflexivity|].
      eapply Forall_impl; [exact Hno|]. intros ev [Hpull _]. exact Hpull.
    + rewrite attempts_cons by reflexivity. rewrite (attempts_none _ Hno).
      simpl. lia.
Qed.

(** A run of [Create] is a part without copies and then copies only; when
    there are copies, the part before them ends with a creation that
    succeeded. *)
Lemma CreateRun_copies s step d domain latest t r :
  CreateRun s step d domain latest t r ->
  exists head copies,
    t = head ++ copies
    /\ Forall (fun ev => is_copy (call ev) = false) head
    /\ Forall (fun ev => is_copy (call ev) = true) copies
    /\ (copies = []
        \/ last head = Some (succeeded (containerCreateCall s step))).
Proof.
  assert (Hfiles : forall found t r, FilesRun step found t r ->
            Forall (fun ev => is_copy (call ev) = true) t).
  { induction 1; repeat constructor; assumption. }
  assert (Hfinish : forall a head t r,
    FinishRun s step a t r ->
    Forall (fun ev => is_copy (call ev) = false) head ->
    exists head' copies,
      (head ++ [mkEvent (containerCreateCall s step) (AnswerError a)]) ++ t
      = head' ++ copies
      /\ Forall (fun ev => is_copy (call ev) = false) head'
      /\ Forall (fun ev => is_copy (call ev) = true) copies
      /\ (copies = []
          \/ last head' = Some (succeeded (containerCreateCall s step)))).
  { intros a head t0 r0 [err|t1 r1 Hrun] Hhead.
    - eexists _, []. split; [reflexivity|].
      split; [apply Forall_app; split;
              [exact Hhead|repeat constructor]|].
      split; [constructor|left; reflexivity].
    - eexists _, t1. split; [reflexivity|].
      split; [apply Forall_app; split;
              [exact Hhead|repeat constructor]|].
      split; [eapply Hfiles, Hrun|]. right. apply last_snoc. }
  assert (Hcreation : forall head t r,
    CreationRun s step d domain t r ->
    Forall (fun ev => is_copy (call ev) = false) head ->
    exists head' copies,
      head ++ t = head' ++ copies
      /\ Forall (fun ev => is_copy (call ev) = false) head'
      /\ Forall (fun ev => is_copy (call ev) = true) copies
      /\ (copies = []
          \/ last head' = Some (succeeded (containerCreateCall s step)))).
  { intros head t0 r0 [a t1 r1 _ Hfin|a perr _|a a' t1 r1 _ Hfin] Hhead.
    - destruct (Hfinish a head t1 r1 Hfin Hhead)
        as (head' & copies & Heq & H1 & H2 & H3).
      exists head', copies. split; [|repeat split; assumption].
      rewrite <- Heq, <- app_assoc. reflexivity.
    - eexists _, []. split; [rewrite app_nil_r; reflexivity|].
      split; [apply Forall_app; split;
              [exact Hhead|repeat constructor]|].
      split; [constructor|left; reflexivity].
    - destruct (Hfinish a'
                  (head ++ [mkEvent (containerCreateCall s step) (AnswerError a);
                            succeeded (pullCall s d domain)]) t1 r1 Hfin)
        as (head' & copies & Heq & H1 & H2 & H3).
      { apply Forall_app. split; [exact Hhead|repeat constructor]. }
      exists head', copies. split; [|repeat split; assumption].
      rewrite <- Heq, <- !app_assoc. reflexivity. }
  intros [perr _|t0 r0 _ Hc|t0 r0 _ Hc].
  - eexists _, []. split; [rewrite app_nil_r; reflexivity|].
    split; [repeat constructor|]. split; [constructor|left; reflexivity].
  - apply (Hcreation [succeeded (pullCall s d domain)] _ _ Hc).
    repeat constructor.
  - apply (Hcreation [] _ _ Hc). constructor.
Qed.

(** X5. [Create] copies files into the container only after a creation of
    the container that succeeded, and calls nothing but copies after the
    first copy: its trace is a part without copies and then copies only,
    and when there is a copy the part before it ends with the creation that
    succeeded. *)
Theorem Create_copies_after_creation e step w :
  exists head copies,
    trace (Create e step w) = head ++ copies
    /\ Forall (fun ev => is_copy (call ev) = false) head
    /\ Forall (fun ev => is_copy (call ev) = true) copies
    /\ (copies = []
        \/ last head = Some (succeeded (containerCreateCall (spec e) step))).
Proof.
  destruct (Create_cases e step w)
    as [[Hd Hc]|[(d & err & Hd & Hparse & Hc)
                |(d & canonical & domain & latest & Hd & Hparse & Hrun)]].
  - rewrite Hc. exists [], []. repeat split; try constructor. reflexivity.
  - rewrite Hc. exists [], []. repeat split; try constructor. reflexivity.
  - eapply CreateRun_copies, Hrun.
Qed.

End CreateCalls.

(** ** The operations, call by call *)

Section OperationCalls.

Context `{Collaborators} {W : Type}.
Implicit Types (e : dockerEngine W) (w : W) (step : Step) (s : Spec).

Lemma Forall_calls (l : list Call) t :
  calls t = l -> Forall (fun ev => call ev ∈ l) t.
Proof.
  intros <-. apply Forall_forall. intros ev Hin.
  apply (list_elem_of_fmap_2 call), Hin.
Qed.

Lemma Forall_succeeded {A} (f : A -> Call) (l : list A) :
  Forall (fun ev => call ev ∈ map f l) (map (fun x => succeeded (f x)) l).
Proof.
  apply Forall_forall. intros ev Hin.
  apply (list_elem_of_fmap (fun x => succeeded (f x))) in Hin.
  destruct Hin as (x & -> & Hx). apply (list_elem_of_fmap_2 f), Hx.
Qed.

Lemma FilesRun_repertoire step found t r :
  FilesRun step found t r ->
  Forall (fun ev => call ev ∈ map (copyCall step) found) t.
Proof.
  induction 1 as [|f rest t r _ IH|f rest err].
  - constructor.
  - constructor; [left|].
    eapply Forall_impl; [exact IH|]. intros ev Hev. right. exact Hev.
  - constructor; [left|constructor].
Qed.

Lemma CreateRun_repertoire s step d domain latest t r :
  CreateRun s step d domain latest t r ->
  Forall (fun ev =>
            call ev ∈ pullCall s d domain
                      :: containerCreateCall s step
                      :: map (copyCall step) (resolvedMounts s step)) t.
Proof.
  assert (Hfinish : forall a t r, FinishRun s step a t r ->
    Forall (fun ev =>
              call ev ∈ pullCall s d domain
                        :: containerCreateCall s step
                        :: map (copyCall step) (resolvedMounts s step)) t).
  { intros a t0 r0 [err|t1 r1 Hrun]; [constructor|].
    eapply Forall_impl; [eapply FilesRun_repertoire, Hrun|].
    intros ev Hev. right. right. exact Hev. }
  assert (Hcreation : forall t r, CreationRun s step d domain t r ->
    Forall (fun ev =>
              call ev ∈ pullCall s d domain
                        :: containerCreateCall s step
                        :: map (copyCall step) (resolvedMounts s step)) t).
  { intros t0 r0 [a t1 r1 _ Hfin|a perr _|a a' t1 r1 _ Hfin].
    - constructor; [right; left|eapply Hfinish, Hfin].
    - constructor; [right; left|]. constructor; [left|constructor].
    - constructor; [right; left|]. constructor; [left|].
      constructor; [right; left|eapply Hfinish, Hfin]. }
  intros [perr _|t0 r0 _ Hc|t0 r0 _ Hc].
  - constructor; [left|constructor].
  - constructor; [left|eapply Hcreation, Hc].
  - eapply Hcreation, Hc.
Qed.

(** Every call of an operation is one of its repertoire. *)
Lemma operation_repertoire e op w :
  Forall (fun ev => call ev ∈ repertoire (spec e) op) (operationTrace e op w).
Proof.
  destruct op as [|step|step|step|step|]; simpl.
  - destruct (Setup_shape e w) as [->|(done & vol & rest & err & Heq & -> & _)];
      apply Forall_app; split.
    + eapply Forall_impl; [apply Forall_succeeded|].
      intros ev Hev. apply elem_of_app. left. exact Hev.
    + constructor; [|constructor]. apply elem_of_app. right. left.
    + eapply Forall_impl; [apply Forall_succeeded|].
      intros ev Hev. apply elem_of_app. left. rewrite Heq, map_app.
      apply elem_of_app. left. exact Hev.
    + constructor; [|constructor]. apply elem_of_app. left.
      rewrite Heq, map_app. apply elem_of_app. right. left.
  - destruct (Create_cases e step w)
      as [[Hd Hc]|[(d & err & Hd & Hparse & Hc)
                  |(d & canonical & domain & latest & Hd & Hparse & Hrun)]].
    + rewrite Hc. constructor.
    + rewrite Hc. constructor.
    + rewrite Hd, Hparse. eapply CreateRun_repertoire, Hrun.
  - unfold Start, clientContainerStart. run_simpl.
    constructor; [left|constructor].
  - unfold Wait, clientContainerWait, clientContainerInspect. run_simpl.
    destruct (docker.ContainerInspect _ _ _).1; simpl;
      (constructor; [left|]; constructor; [right; left|constructor]).
  - unfold Tail, clientContainerLogs. run_simpl.
    destruct (docker.ContainerLogs _ _ _ _).1; simpl;
      (constructor; [left|constructor]).
  - destruct (Destroy_shape e w) as (containers & Hcalls & Hshape).
    destruct Hshape as [->|(done & vol & rest & err & Heq & -> & _)];
      (apply Forall_app; split;
       [eapply Forall_impl; [apply Forall_calls, Hcalls|];
        intros ev Hev; apply elem_of_app; left; exact Hev|]);
      apply Forall_app; split.
    + eapply Forall_impl; [apply Forall_succeeded|].
      intros ev Hev. apply elem_of_app. right. apply elem_of_app. left.
      exact Hev.
    + constructor; [|constructor]. apply elem_of_app. right.
      apply elem_of_app. right. left.
    + eapply Forall_impl; [apply Forall_succeeded|].
      intros ev Hev. apply elem_of_app. right. apply elem_of_app. left.
      rewrite Heq, map_app. apply elem_of_app. left. exact Hev.
    + constructor; [|constructor]. apply elem_of_app. right.
      apply elem_of_app. left. rewrite Heq, map_app. apply elem_of_app.
      right. left.
Qed.

(** What holds of the repertoire holds of the trace. *)
Lemma repertoire_Forall (P : Call -> Prop) e op w :
  (forall c, c ∈ repertoire (spec e) op -> P c) ->
  Forall (fun ev => P (call ev)) (operationTrace e op w).
Proof.
  intros HP. eapply Forall_impl; [apply operation_repertoire|].
  intros ev Hev. apply HP, Hev.
Qed.

Lemma elem_of_teardownCalls c (steps : list Step) :
  c ∈ flat_map teardownCalls steps ->
  exists step, step ∈ steps /\ c ∈ teardownCalls step.
Proof.
  rewrite list_elem_of_In, in_flat_map. intros (step & Hstep & Hc).
  exists step. rewrite !list_elem_of_In. split; assumption.
Qed.

(** X6. The calls of an operation, with all their arguments, are fixed by
    the specification and the step: the volumes are created with the local
    driver and the labels of the specification, the network as a bridge
    with the same labels, the containers are killed with the signal 9 and
    removed with force and with their volumes, the payloads are copied to
    the root without overwriting a directory. The answers of the daemon
    decide only which of these calls are made. *)
Theorem operation_calls_fixed e op w :
  Forall (fun ev => call ev ∈ repertoire (spec e) op) (operationTrace e op w).
Proof. apply operation_repertoire. Qed.

(** X7. Each operation calls only the methods of the client that are its
    own: [Setup] creates volumes and the network and removes nothing,
    [Create] pulls, creates the container and copies, [Start] starts,
    [Wait] waits and inspects, [Tail] reads the logs, and [Destroy] kills
    and removes and creates nothing. *)
Theorem operations_call_own_methods e op w :
  Forall (fun ev => permitted op (call ev) = true) (operationTrace e op w).
Proof.
  apply (repertoire_Forall (fun c => permitted op c = true)).
  intros c Hc. destruct op as [|step|step|step|step|]; simpl in Hc.
  - apply elem_of_app in Hc. destruct Hc as [Hc|Hc].
    + apply list_elem_of_fmap in Hc. destruct Hc as (vol & -> & _). reflexivity.
    + apply list_elem_of_singleton in Hc. subst c. reflexivity.
  - destruct (Step_Docker step) as [d|]; [|inversion Hc].
    destruct (parseImage (Image d)) as [err|[[canonical domain] latest]];
      [inversion Hc|].
    rewrite !elem_of_cons in Hc. destruct Hc as [->|[->|Hc]]; try reflexivity.
    apply list_elem_of_fmap in Hc. destruct Hc as (found & -> & _). reflexivity.
  - apply list_elem_of_singleton in Hc. subst c. reflexivity.
  - rewrite !elem_of_cons in Hc. destruct Hc as [->|[->|Hc]];
      [reflexivity|reflexivity|inversion Hc].
  - apply list_elem_of_singleton in Hc. subst c. reflexivity.
  - apply elem_of_app in Hc. destruct Hc as [Hc|Hc].
    + apply elem_of_teardownCalls in Hc. destruct Hc as (step & _ & Hc).
      unfold teardownCalls in Hc. rewrite !elem_of_cons in Hc.
      destruct Hc as [->|[->|Hc]]; [reflexivity|reflexivity|inversion Hc].
    + apply elem_of_app in Hc. destruct Hc as [Hc|Hc].
      * apply list_elem_of_fmap in Hc. destruct Hc as (vol & -> & _).
        reflexivity.
      * apply list_elem_of_singleton in Hc. subst c. reflexivity.
Qed.

(** X8. The resources are named after the identifiers of the
    specification: a call of [Create], [Start], [Wait] or [Tail] that
    addresses a container addresses the container named after the step, a
    call of [Destroy] that addresses a container addresses the container of
    a step of the specification, [Setup] addresses no container, and a call
    that addresses a network addresses the network named after the
    specification. *)
Theorem operations_name_own_resources e op w :
  Forall (fun ev =>
            (forall id, container_target (call ev) = Some id ->
               match op with
               | OpSetup => False
               | OpCreate step | OpStart step | OpWait step | OpTail step =>
                   id = UID (Step_Metadata step)
               | OpDestroy =>
                   exists step, step ∈ Steps (spec e)
                                /\ id = UID (Step_Metadata step)
               end)
            /\ (forall id, network_target (call ev) = Some id ->
                  id = UID (Spec_Metadata (spec e))))
         (operationTrace e op w).
Proof.
  apply (repertoire_Forall
           (fun c =>
              (forall id, container_target c = Some id ->
                 match op with
                 | OpSetup => False
                 | OpCreate step | OpStart step | OpWait step | OpTail step =>
                     id = UID (Step_Metadata step)
                 | OpDestroy =>
                     exists step, step ∈ Steps (spec e)
                                  /\ id = UID (Step_Metadata step)
                 end)
              /\ (forall id, network_target c = Some id ->
                    id = UID (Spec_Metadata (spec e))))).
  intros c Hc. destruct op as [|step|step|step|step|]; simpl in Hc.
  - apply elem_of_app in Hc. destruct Hc as [Hc|Hc].
    + apply list_elem_of_fmap in Hc. destruct Hc as (vol & -> & _).
      split; intros id; discriminate.
    + apply list_elem_of_singleton in Hc. subst c.
      split; intros id; [discriminate|]. intros [= <-]. reflexivity.
  - destruct (Step_Docker step) as [d|]; [|inversion Hc].
    destruct (parseImage (Image d)) as [err|[[canonical domain] latest]];
      [inversion Hc|].
    rewrite !elem_of_cons in Hc. destruct Hc as [->|[->|Hc]].
    + split; intros id; discriminate.
    + split; intros id; [|discriminate]. intros [= <-]. reflexivity.
    + apply list_elem_of_fmap in Hc. destruct Hc as (found & -> & _).
      split; intros id; [|discriminate]. intros [= <-]. reflexivity.
  - apply list_elem_of_singleton in Hc. subst c.
    split; intros id; [|discriminate]. intros [= <-]. reflexivity.
  - rewrite !elem_of_cons in Hc. destruct Hc as [->|[->|Hc]];
      [| |inversion Hc];
      (split; intros id; [|discriminate]; intros [= <-]; reflexivity).
  - apply list_elem_of_singleton in Hc. subst c.
    split; intros id; [|discriminate]. intros [= <-]. reflexivity.
  - apply elem_of_app in Hc. destruct Hc as [Hc|Hc].
    + apply elem_of_teardownCalls in Hc. destruct Hc as (step & Hstep & Hc).
      unfold teardownCalls in Hc. rewrite !elem_of_cons in Hc.
      destruct Hc as [->|[->|Hc]]; [| |inversion Hc];
        (split; intros id; [|discriminate]; intros [= <-];
         exists step; split; [exact Hstep|reflexivity]).
    + apply elem_of_app in Hc. destruct Hc as [Hc|Hc].
      * apply list_elem_of_fmap in Hc. destruct Hc as (vol & -> & _).
        split; intros id; discriminate.
      * apply list_elem_of_singleton in Hc. subst c.
        split; intros id; [discriminate|]. intros [= <-]. reflexivity.
Qed.

(** X9. No operation makes up or wraps an error: the error that an
    operation returns, nil included, is the error in the answer of its
    last call. The only errors that are returned without any call are
    those of [Create] for a step without Docker configuration or with an
    image reference that does not resolve. *)
Theorem operations_return_last_error e op w :
  (operationTrace e op w = []
   /\ exists step,
        op = OpCreate step
        /\ (Step_Docker step = None
            \/ exists d err,
                 Step_Docker step = Some d
                 /\ parseImage (Image d) = inl err
                 /\ operationError e op w = Some err))
  \/ (exists init ev,
        operationTrace e op w = init ++ [ev]
        /\ answer_error (answer ev) = operationError e op w).
Proof.
  destruct op as [|step|step|step|step|]; simpl.
  - right.
    destruct (Setup_shape e w) as [Ht|(done & vol & rest & err & _ & Ht & Hr)];
      rewrite Ht; eexists _, _; (split; [reflexivity|]); simpl;
      [reflexivity|symmetry; exact Hr].
  - destruct (Create_cases e step w)
      as [[Hd Hc]|[(d & err & Hd & Hparse & Hc)
                  |(d & canonical & domain & latest & Hd & Hparse & Hrun)]].
    + left. rewrite Hc. split; [reflexivity|]. exists step.
      split; [reflexivity|]. left. exact Hd.
    + left. rewrite Hc. split; [reflexivity|]. exists step.
      split; [reflexivity|]. right. exists d, err.
      split; [exact Hd|]. split; [exact Hparse|reflexivity].
    + right. apply CreateRun_stop in Hrun.
      destruct Hrun as (init & ev & Ht & Hans & _).
      exists init, ev. split; [exact Ht|]. rewrite Hans. reflexivity.
  - right. unfold Start, clientContainerStart. run_simpl.
    exists [], (mkEvent (CallContainerStart (UID (Step_Metadata step))
                           {| CheckpointID := EmptyString |})
                  (AnswerError
                     (docker.ContainerStart (client e)
                        (UID (Step_Metadata step))
                        {| CheckpointID := EmptyString |} w).1)).
    split; reflexivity.
  - right. unfold Wait, clientContainerWait, clientContainerInspect.
    run_simpl.
    destruct (docker.ContainerWait (client e) _ _ w) as [msg w1]; simpl.
    destruct (docker.ContainerInspect (client e) _ w1) as [[err|info] w2];
      simpl; eexists [_], _; split; reflexivity.
  - right. unfold Tail, clientContainerLogs. run_simpl.
    destruct (docker.ContainerLogs (client e) _ _ w) as [[err|logs] w1];
      simpl; eexists [], _; split; reflexivity.
  - right. destruct (Destroy_shape e w) as (containers & _ & Hshape).
    destruct Hshape as [Ht|(done & vol & rest & err & _ & Ht & Hr)];
      rewrite Ht, app_assoc; eexists _, _; (split; [reflexivity|]); simpl;
      [reflexivity|symmetry; exact Hr].
Qed.

Lemma omap_volume_target_none t :
  Forall (fun ev => volume_target (call ev) = None) t ->
  omap volume_target (calls t) = [].
Proof.
  unfold calls. induction 1 as [|ev t Hev _ IH]; [reflexivity|].
  simpl. rewrite Hev. exact IH.
Qed.

Lemma omap_volume_target_all (f : Volume -> Call) vols :
  (forall vol, volume_target (f vol) = Some (UID (Volume_Metadata vol))) ->
  omap volume_target (calls (map (fun vol => succeeded (f vol)) vols))
  = map (fun vol => UID (Volume_Metadata vol)) vols.
Proof.
  intros Hf. unfold calls. induction vols as [|vol vols IH]; [reflexivity|].
  simpl. rewrite Hf. f_equal. exact IH.
Qed.

(** X10. [Destroy] addresses what [Setup] made: when [Setup] returned no
    error and [Destroy] returns no error, in whatever states of the daemon,
    the volumes that [Destroy] removes are the volumes that [Setup]
    created, in the same order, and the network that it removes is the
    network that [Setup] created. *)
Theorem Destroy_removes_what_Setup_created e w w' :
  result (Setup e w) = None ->
  result (Destroy e w') = None ->
  omap volume_target (calls (trace (Destroy e w')))
  = omap volume_target (calls (trace (Setup e w)))
  /\ omap network_target (calls (trace (Destroy e w')))
     = omap network_target (calls (trace (Setup e w)))
  /\ omap network_target (calls (trace (Setup e w)))
     = [UID (Spec_Metadata (spec e))].
Proof.
  intros Hsetup Hdestroy.
  assert (Hnet_none : forall t,
            Forall (fun ev => network_target (call ev) = None) t ->
            omap network_target (calls t) = []).
  { unfold calls. induction 1 as [|ev t Hev _ IH]; [reflexivity|].
    simpl. rewrite Hev. exact IH. }
  assert (Hnet_vols : forall (f : Volume -> Call) vols,
            (forall vol, network_target (f vol) = None) ->
            Forall (fun ev => network_target (call ev) = None)
                   (map (fun vol => succeeded (f vol)) vols)).
  { intros f vols Hf. apply Forall_forall. intros ev Hin.
    apply (list_elem_of_fmap (fun vol => succeeded (f vol))) in Hin.
    destruct Hin as (vol & -> & _). apply Hf. }
  destruct (Setup_shape e w) as [Hts|(done & vol & rest & err & _ & _ & Hr)];
    [|congruence].
  destruct (Destroy_shape e w') as (containers & Hcalls & Hshape).
  destruct Hshape as [Htd|(done & vol & rest & err & _ & _ & Hr)];
    [|congruence].
  assert (Hcontainers :
            Forall (fun ev => volume_target (call ev) = None
                              /\ network_target (call ev) = None) containers).
  { eapply Forall_impl; [apply Forall_calls, Hcalls|]. intros ev Hev.
    apply elem_of_teardownCalls in Hev. destruct Hev as (step & _ & Hev).
    unfold teardownCalls in Hev. rewrite !elem_of_cons in Hev.
    destruct Hev as [->|[->|Hev]]; [| |inversion Hev]; split; reflexivity. }
  rewrite Hts, Htd. unfold calls. rewrite !map_app, !omap_app.
  fold (calls containers).
  fold (calls (map (fun vol => succeeded (volumeRemoveCall vol))
                   (ephemeralVolumes (spec e)))).
  fold (calls (map (fun vol => succeeded (volumeCreateCall (spec e) vol))
                   (ephemeralVolumes (spec e)))).
  rewrite (omap_volume_target_none containers)
    by (eapply Forall_impl; [exact Hcontainers|];
        intros ev [Hv Hn]; exact Hv).
  rewrite (Hnet_none containers)
    by (eapply Forall_impl; [exact Hcontainers|];
        intros ev [Hv Hn]; exact Hn).
  rewrite (omap_volume_target_all volumeRemoveCall) by reflexivity.
  rewrite (omap_volume_target_all (volumeCreateCall (spec e))) by reflexivity.
  rewrite (Hnet_none _ (Hnet_vols volumeRemoveCall _ (fun _ => eq_refl))).
  rewrite (Hnet_none _ (Hnet_vols (volumeCreateCall (spec e)) _
                          (fun _ => eq_refl))).
  simpl. repeat split; reflexivity.
Qed.

End OperationCalls.

(** ** References with a digest *)

Section ReferenceDigest.

Import reference.

Lemma ReferenceRegexp_digest s name tg dgst :
  ReferenceRegexp s = Some (name, tg, dgst) ->
  dgst = [] \/ digestRegexp dgst = true.
Proof.
  unfold ReferenceRegexp.
  destruct (cut "@" s) as [[front d]|].
  - destruct (match cut_last ":" front with
              | Some (n, t) =>
                  if ContainsRune t "/" then (front, None) else (n, Some t)
              | None => (front, None)
              end) as [name0 tg0].
    destruct (matched (anchoredNameRegexp name0) && from_option tagRegexp true tg0
              && from_option digestRegexp true (Some d)) eqn:Hmatch;
      [|discriminate].
    intros [= _ _ <-]. right. apply andb_true_iff in Hmatch. apply Hmatch.
  - destruct (match cut_last ":" s with
              | Some (n, t) =>
                  if ContainsRune t "/" then (s, None) else (n, Some t)
              | None => (s, None)
              end) as [name0 tg0].
    destruct (_ && _); [|discriminate]. intros [= _ _ <-]. left. reflexivity.
Qed.

Lemma Parse_digest s named :
  Parse s = inr named ->
  digest named = EmptyString
  \/ digestRegexp (of_string (digest named)) = true.
Proof.
  unfold Parse.
  destruct (ReferenceRegexp s) as [[[name tg] dgst]|] eqn:Hmatch.
  - apply ReferenceRegexp_digest in Hmatch.
    destruct (_ <? _)%nat; [discriminate|].
    destruct (default _ _) as [d p].
    assert (Hnamed : @inr error Named
                       (mkNamed (to_string d) (to_string p) (to_string tg)
                                (to_string dgst)) = inr named ->
              digest named = EmptyString
              \/ digestRegexp (of_string (digest named)) = true).
    { intros [= <-]. simpl. rewrite of_to_string.
      destruct Hmatch as [->|Hmatch]; [left; reflexivity|right; exact Hmatch]. }
    destruct dgst as [|c dgst]; [exact Hnamed|].
    destruct (digestValidate (c :: dgst)); [discriminate|exact Hnamed].
  - destruct s; [discriminate|]. destruct (matched _); discriminate.
Qed.

Lemma ParseNormalizedNamed_digest s named :
  ParseNormalizedNamed s = inr named ->
  digest named = EmptyString
  \/ digestRegexp (of_string (digest named)) = true.
Proof.
  unfold ParseNormalizedNamed.
  destruct (anchoredIdentifierRegexp _); [discriminate|].
  destruct (splitDockerDomain (of_string s)) as [dom rest].
  destruct (negb _); [discriminate|]. apply Parse_digest.
Qed.

(** A string that ends in seven or more hexadecimal digits does not end
    in ":latest". *)
Lemma hex_suffix_not_latest (front hex : bytes) :
  forallb xdigit hex = true -> (7 <= length hex)%nat ->
  HasSuffixBytes (front ++ hex) (of_string ":latest") = false.
Proof.
  intros Hhex Hlen.
  destruct (HasSuffixBytes (front ++ hex) (of_string ":latest")) eqn:Hsuffix;
    [|reflexivity].
  exfalso. apply HasSuffixBytes_spec in Hsuffix. destruct Hsuffix as [pre Heq].
  apply List.app_eq_app in Heq. destruct Heq as [a [[_ Ha]|[_ Ha]]].
  - assert (a = []) as ->.
    { apply (f_equal length) in Ha. rewrite length_app in Ha.
      simpl in Ha. destruct a; [reflexivity|simpl in Ha; lia]. }
    simpl in Ha. subst hex. vm_compute in Hhex. discriminate.
  - subst hex. rewrite forallb_app, andb_true_iff in Hhex.
    destruct Hhex as [_ Hhex]. vm_compute in Hhex. discriminate.
Qed.

(** X11. A reference with a digest is never reported as latest, whatever
    its tag: [parseImage] leaves the reference as the parser returned it,
    without adding a tag, and returns the flag false, because the canonical
    string ends in the digest. *)
Theorem parseImage_digest_not_latest s named :
  ParseNormalizedNamed s = inr named ->
  digest named <> EmptyString ->
  TagNameOnly named = named
  /\ parseImage s = inr (String named, domain named, false).
Proof.
  intros Hparse Hdigest.
  assert (Hsame : TagNameOnly named = named).
  { unfold TagNameOnly, IsNameOnly.
    apply eqb_empty_false in Hdigest. rewrite Hdigest, andb_false_r.
    reflexivity. }
  split; [exact Hsame|].
  unfold parseImage. rewrite Hparse, Hsame. unfold Domain.
  f_equal. f_equal.
  destruct (ParseNormalizedNamed_digest _ _ Hparse) as [Hnone|Hregexp];
    [contradiction|].
  unfold digestRegexp in Hregexp.
  destruct (cut ":" (of_string (digest named))) as [[a h]|] eqn:Hcut;
    [|discriminate].
  apply cut_spec in Hcut. rewrite !andb_true_iff in Hregexp.
  destruct Hregexp as [[_ Hhex] Hlen]. apply Nat.leb_le in Hlen.
  unfold HasSuffix, String. rewrite (proj2 (eqb_empty_false _) Hdigest).
  rewrite !of_string_app, Hcut, (cons_middle ":"%char a h).
  rewrite !app_assoc. apply hex_suffix_not_latest; [exact Hhex|lia].
Qed.

End ReferenceDigest.

(** ** The flag of the resolver *)

Section ReferenceFlag.

Import strings reference.






End ReferenceFlag.

(** ** The pull before the creation *)

Section PullDecision.

Context `{Collaborators} {W : Type}.
Implicit Types (e : dockerEngine W) (w : W) (step : Step).


End PullDecision.

(** ** The properties on the examples *)

Section Examples.

Import examples.

(** The recovery on the scripted client: the first creation finds no
    image, the pull and the second creation succeed, the payload is
    copied. *)
Lemma Create_not_found_recovery_witness :
  (exists perr,
     [succeeded (pullCall pipeline golang "docker.io");
      succeeded (containerCreateCall pipeline (build PullDefault));
      succeeded (copyCall (build PullDefault) (netrc, netrcMount))]
     = [failed (pullCall pipeline golang "docker.io") perr]
     /\ result (Create mocked (build PullDefault) absentImage) = Some perr)
  \/ (exists a' rest,
        [succeeded (pullCall pipeline golang "docker.io");
         succeeded (containerCreateCall pipeline (build PullDefault));
         succeeded (copyCall (build PullDefault) (netrc, netrcMount))]
        = succeeded (pullCall pipeline golang "docker.io")
          :: mkEvent (containerCreateCall pipeline (build PullDefault))
                     (AnswerError a')
          :: rest
        /\ Forall no_attempt rest
        /\ (forall err, a' = Some err ->
              rest = []
              /\ result (Create mocked (build PullDefault) absentImage)
                 = Some err)).
Proof.
  apply (Create_not_found_recovery mocked (build PullDefault) absentImage
           golang "docker.io/library/golang:1.11" "docker.io" false
           (Some notFound)).
  - reflexivity.
  - reflexivity.
  - reflexivity.
  - reflexivity.
  - discriminate.
Defined.



(** C3, the claim as stated fails: when the removal of a volume fails,
    [Destroy] returns that error and never calls the removal of the
    network. *)
Lemma Destroy_volume_failure_skips_network :
  result (Destroy mocked busyVolume) = Some busy
  /\ ~ (exists ev, ev ∈ trace (Destroy mocked busyVolume)
                   /\ is_network_remove (call ev) = true).
Proof.
  split; [reflexivity|]. intros (ev & Hin & Hcall).
  change (trace (Destroy mocked busyVolume))
    with [succeeded (CallContainerKill "step-build" "9");
          succeeded (CallContainerRemove "step-build" removeOpts);
          failed (volumeRemoveCall cache) busy] in Hin.
  rewrite !elem_of_cons in Hin.
  destruct Hin as [->|[->|[->|Hin]]]; try discriminate. inversion Hin.
Qed.

(** C5, the claim as stated fails on references with a digest: a reference
    with a digest and no tag gets no tag, and a reference with the tag
    "latest" and a digest has the flag false. *)
Lemma parseImage_digest_counterexample :
  (exists named,
     reference.ParseNormalizedNamed pinned = inr named
     /\ reference.tag named = EmptyString
     /\ reference.tag (reference.TagNameOnly named) = EmptyString)
  /\ (exists named canonical domain,
        reference.ParseNormalizedNamed pinnedLatest = inr named
        /\ reference.tag (reference.TagNameOnly named) = "latest"
        /\ parseImage pinnedLatest = inr (canonical, domain, false)).
Proof.
  split.
  - eexists. split; [reflexivity|]. split; reflexivity.
  - eexists _, _, _. split; [reflexivity|]. split; reflexivity.
Qed.

(** The resolver on "alpine": the tag "latest" is put on the reference. *)
Lemma parseImage_forces_tag_witness :
  reference.tag
    (reference.TagNameOnly
       (reference.mkNamed "docker.io" "library/alpine" EmptyString EmptyString))
  = "latest"
  /\ reference.tag
       (reference.TagNameOnly
          (reference.mkNamed "docker.io" "library/alpine" EmptyString
             EmptyString))
     <> EmptyString
  /\ exists latest,
       parseImage "alpine"
       = inr ("docker.io/library/alpine" +:+ ":"
              +:+ reference.tag
                    (reference.TagNameOnly
                       (reference.mkNamed "docker.io" "library/alpine"
                          EmptyString EmptyString)),
              "docker.io", latest)
       /\ (latest = true
           <-> reference.tag
                 (reference.TagNameOnly
                    (reference.mkNamed "docker.io" "library/alpine"
                       EmptyString EmptyString))
               = "latest").
Proof.
  apply (parseImage_forces_tag "alpine"
           (reference.mkNamed "docker.io" "library/alpine" EmptyString
              EmptyString)).
  - reflexivity.
  - reflexivity.
Defined.

(** The mounts of the build step on the scripted client: the first mount
    has no payload and is skipped, the copy of the second fails. *)
Lemma Create_unknown_payload_skipped_witness :
  result (Create mocked (build PullDefault) copyFails) = Some busy
  /\ last (trace (Create mocked (build PullDefault) copyFails))
     = Some (failed (copyCall (build PullDefault) (netrc, netrcMount)) busy).
Proof.
  destruct (Create_unknown_payload_skipped mocked (build PullDefault) copyFails)
    as (_ & _ & _ & _ & Hfailure & _).
  apply Hfailure.
  - change (trace (Create mocked (build PullDefault) copyFails))
      with [succeeded (containerCreateCall pipeline (build PullDefault));
            failed (copyCall (build PullDefault) (netrc, netrcMount)) busy].
    right. left.
  - reflexivity.
  - reflexivity.
Defined.

(** [Setup] on the in-memory daemon never names the socket volume, which
    is mounted from the host. *)
Lemma volumes_only_ephemeral_witness :
  Forall (fun ev => volume_target (call ev) <> Some "vol-socket")
         (operationTrace local OpSetup running).
Proof.
  destruct (volumes_only_ephemeral local OpSetup running) as (_ & _ & Hhost).
  apply (Hhost socket).
  - right. left.
  - reflexivity.
  - intros vol' Hin Heph.
    change (declaredVolumes (spec local)) with [cache; socket; workspace] in Hin.
    rewrite !elem_of_cons in Hin.
    destruct Hin as [->|[->|[->|Hin]]];
      [discriminate|discriminate|discriminate|inversion Hin].
Defined.

(** The in-memory daemon keeps the contract of removal. *)
Lemma daemon_contract :
  RemovalContract daemon (fun w id => id ∈ volumes w)
    (fun w id => id ∈ networks w).
Proof.
  split.
  - intros w id force Habsent. simpl. unfold daemonVolumeRemove.
    rewrite (bool_decide_eq_false_2 _ Habsent). reflexivity.
  - intros w id Habsent. simpl. unfold daemonNetworkRemove.
    rewrite (bool_decide_eq_false_2 _ Habsent). reflexivity.
  - intros w id force. simpl. unfold daemonVolumeRemove.
    destruct (_ && _); [discriminate|]. intros _. simpl.
    rewrite elem_of_difference, elem_of_singleton. tauto.
  - intros w id. simpl. unfold daemonNetworkRemove.
    destruct (_ && _); [discriminate|]. intros _. simpl.
    rewrite elem_of_difference, elem_of_singleton. tauto.
  - intros w w' id Hstep Habsent.
    destruct Hstep as [c sig w|c opts w|v force w|n w]; simpl;
      try exact Habsent.
    + unfold daemonVolumeRemove. destruct (_ && _); simpl; [exact Habsent|].
      rewrite elem_of_difference. tauto.
    + unfold daemonNetworkRemove. destruct (_ && _); exact Habsent.
  - intros w w' id Hstep Habsent.
    destruct Hstep as [c sig w|c opts w|v force w|n w]; simpl;
      try exact Habsent.
    + unfold daemonVolumeRemove. destruct (_ && _); exact Habsent.
    + unfold daemonNetworkRemove. destruct (_ && _); simpl; [exact Habsent|].
      rewrite elem_of_difference. tauto.
Qed.

(** [Destroy] twice on the in-memory daemon. *)
Lemma Destroy_idempotent_witness :
  result (Destroy local (world (Destroy local running))) = None.
Proof.
  apply (Destroy_idempotent local (fun w id => id ∈ volumes w)
           (fun w id => id ∈ networks w) daemon_contract running).
  vm_compute. reflexivity.
Defined.

End Examples.

(** ** The calls on the examples *)

Section CallExamples.

Import examples.

(** Two pulls and two creations on the scripted client. *)
Lemma Create_attempts_bounded_witness :
  exists n,
    attempts (trace (Create mocked (build PullAlways) pulledTwice))
    = (if pullsFirstb golangAlways false
       then [pullCall pipeline golangAlways "docker.io"] else [])
      ++ take n [containerCreateCall pipeline (build PullAlways);
                 pullCall pipeline golangAlways "docker.io";
                 containerCreateCall pipeline (build PullAlways)].
Proof.
  apply (Create_attempts_bounded mocked (build PullAlways) pulledTwice
           golangAlways "docker.io/library/golang:1.11" "docker.io" false).
  - reflexivity.
  - reflexivity.
Defined.

(** Under [PullNever] the image that is absent locally is not pulled. *)
Lemma Create_never_pulls_under_PullNever_witness :
  Forall (fun ev => is_pull (call ev) = false)
         (trace (Create mocked (build PullNever) absentImage))
  /\ (length (attempts (trace (Create mocked (build PullNever) absentImage)))
      <= 1)%nat.
Proof.
  apply (Create_never_pulls_under_PullNever mocked (build PullNever)
           absentImage golangNever).
  - reflexivity.
  - reflexivity.
Defined.

(** [Setup] on the idle daemon and [Destroy] on the running one. *)
Lemma Destroy_removes_what_Setup_created_witness :
  omap volume_target (calls (trace (Destroy local running)))
  = omap volume_target (calls (trace (Setup local idle)))
  /\ omap network_target (calls (trace (Destroy local running)))
     = omap network_target (calls (trace (Setup local idle)))
  /\ omap network_target (calls (trace (Setup local idle)))
     = [UID (Spec_Metadata (spec local))].
Proof.
  apply (Destroy_removes_what_Setup_created local idle running).
  - vm_compute. reflexivity.
  - vm_compute. reflexivity.
Defined.

(** The reference with the tag "latest" and a digest. *)
Lemma parseImage_digest_not_latest_witness :
  reference.TagNameOnly pinnedLatestNamed = pinnedLatestNamed
  /\ parseImage pinnedLatest
     = inr (reference.String pinnedLatestNamed,
            reference.domain pinnedLatestNamed, false).
Proof.
  apply (parseImage_digest_not_latest pinnedLatest pinnedLatestNamed).
  - reflexivity.
  - discriminate.
Defined.

(** A step without Docker configuration, on any client. *)
Lemma Create_no_call_iff_rejected_witness :
  Create mocked
    {| Step_Metadata := meta "step-plain"; Step_Docker := None;
       Step_Files := [] |} (script [])
  = (Some (errors.New "engine: missing docker configuration"), script [], []).
Proof.
  destruct (Create_no_call_iff_rejected mocked
              {| Step_Metadata := meta "step-plain"; Step_Docker := None;
                 Step_Files := [] |} (script [])) as (_ & Hmissing & _).
  apply Hmissing. reflexivity.
Defined.

End CallExamples.
